(** * goclient: the request lifecycle engine

  A shallow embedding of package [goclient] (the fluent request builder,
  its single-shot executor, the batch executor and the worker pool)
  together with the properties of its specification.

  Go values are modelled as follows.
  - [string] is Rocq's [string]; [[]byte] is [list byte]; [int] is [Z].
  - [map[string]string] is [gmap string string]; a nil map is [None].
  - pointers ([*request], the destinations handed to [SetError], the
    readers handed to [SetBody]) are addresses into stores kept in the
    [world]; a method with a pointer receiver takes the address and the
    world and returns the new world.
  - the collaborators the library calls but does not implement (net/url,
    encoding/json, the transport, the order in which [range] visits a map)
    are the fields of [Env].
  - goroutines are sequentialised: a schedule names which goroutine takes
    its next step. *)

From Stdlib Require Import ZArith NArith Ascii String List Lia.
From Stdlib.Strings Require Import Byte.
From stdpp Require Import base option list gmap strings pretty fin_maps.

Set Warnings "-register-all".

Local Open Scope string_scope.
Local Open Scope Z_scope.

Abbreviation bytes := (list byte).

(** [[]byte(s)] *)
Definition bytes_of_string (s : string) : bytes := list_byte_of_string s.

(** ** net/textproto: canonical header keys *)

Module textproto.

Definition is_lower (c : ascii) : bool :=
  let n := N_of_ascii c in ((97 <=? n) && (n <=? 122))%N.

Definition is_upper (c : ascii) : bool :=
  let n := N_of_ascii c in ((65 <=? n) && (n <=? 90))%N.

Definition is_digit (c : ascii) : bool :=
  let n := N_of_ascii c in ((48 <=? n) && (n <=? 57))%N.

(** The token bytes of RFC 7230: letters, digits and
    ! # $ % & ' * + - . ^ _ ` | ~ *)
Definition validHeaderFieldByte (c : ascii) : bool :=
  is_lower c || is_upper c || is_digit c ||
  existsb (N.eqb (N_of_ascii c))
    [33; 35; 36; 37; 38; 39; 42; 43; 45; 46; 94; 95; 96; 124; 126]%N.

Definition toLower : N := 32.

Definition upcase (c : ascii) : ascii := ascii_of_N (N_of_ascii c - toLower).
Definition downcase (c : ascii) : ascii := ascii_of_N (N_of_ascii c + toLower).

Definition dash : ascii := "-"%char.

(** The rewriting loop of [canonicalMIMEHeaderKey]: upper case for the
    first letter and for a letter after a dash, lower case elsewhere. *)
Fixpoint canon_loop (upper : bool) (s : string) : string :=
  match s with
  | EmptyString => EmptyString
  | String c rest =>
      let c' :=
        if upper && is_lower c then upcase c
        else if negb upper && is_upper c then downcase c
        else c in
      String c' (canon_loop (Ascii.eqb c' dash) rest)
  end.

Fixpoint all_valid (s : string) : bool :=
  match s with
  | EmptyString => true
  | String c rest => validHeaderFieldByte c && all_valid rest
  end.

(** [CanonicalMIMEHeaderKey]: a key holding a byte that is not a token
    byte (a space included) is returned unchanged. *)
Definition CanonicalMIMEHeaderKey (s : string) : string :=
  if all_valid s then canon_loop true s else s.

End textproto.

(** ** encoding/base64, standard alphabet with padding *)

Module base64.

Definition encodeStd : string :=
  "ABCDEFGHIJKLMNOPQRSTUVWXYZabcdefghijklmnopqrstuvwxyz0123456789+/".

Definition digit (n : N) : ascii :=
  match String.get (N.to_nat (N.land n 63)) encodeStd with
  | Some c => c
  | None => "="%char
  end.

Definition pad : ascii := "="%char.

Fixpoint encode (src : list N) : string :=
  match src with
  | [] => EmptyString
  | [a] =>
      let v := N.shiftl a 16 in
      String (digit (N.shiftr v 18)) (String (digit (N.shiftr v 12))
        (String pad (String pad EmptyString)))
  | [a; b] =>
      let v := N.lor (N.shiftl a 16) (N.shiftl b 8) in
      String (digit (N.shiftr v 18)) (String (digit (N.shiftr v 12))
        (String (digit (N.shiftr v 6)) (String pad EmptyString)))
  | a :: b :: c :: rest =>
      let v := N.lor (N.lor (N.shiftl a 16) (N.shiftl b 8)) c in
      String (digit (N.shiftr v 18)) (String (digit (N.shiftr v 12))
        (String (digit (N.shiftr v 6)) (String (digit v) (encode rest))))
  end.

Definition EncodeToString (src : bytes) : string :=
  encode (List.map Byte.to_N src).

End base64.

(** ** net/http: headers *)

Module http.

(** [http.Header], a [map[string][]string] keyed by canonical names. *)
Abbreviation Header := (gmap string (list string)).

(** [h.Set(key, value)] *)
Definition Header_Set (key value : string) (h : Header) : Header :=
  <[textproto.CanonicalMIMEHeaderKey key := [value]]> h.

(** [h.Get(key)]: the first value, the empty string when absent. *)
Definition Header_Get (key : string) (h : Header) : string :=
  match h !! textproto.CanonicalMIMEHeaderKey key with
  | Some (v :: _) => v
  | _ => ""
  end.

(** The value [req.SetBasicAuth(username, password)] stores under
    Authorization. *)
Definition basicAuth (username password : string) : string :=
  "Basic " ++
    base64.EncodeToString (bytes_of_string (username ++ ":" ++ password)).

End http.


(** ** Values, errors and the library's result types *)

(** Addresses of heap objects. *)
Abbreviation loc := nat.

(** The Go values the library only moves around: what a caller passes to
    [SetBody], and what [json.Unmarshal] writes behind a destination. *)
Inductive GoValue : Type :=
| VNil
| VBool (b : bool)
| VInt (z : Z)
| VString (s : string)
| VSlice (l : list GoValue)
| VStruct (fields : list (string * GoValue)).

(** A non-nil [interface{}] holding something other than bytes, a string or
    a reader: a pointer to a caller-owned value, or a value copied in. *)
Inductive boxed : Type :=
| Ptr (p : loc)
| Val (v : GoValue).

(** Go's [error] values, by the expression that builds them.
    [ErrRequest] is a pointer to [RequestError]; its arguments are the fields
    StatusCode, URL, Method, Response and Err. *)
Inductive error : Type :=
| ErrExternal (msg : string)
| ErrWrap (prefix : string) (cause : error)
| ErrStatus (code : Z)
| ErrStatusDetail (code : Z) (detail : GoValue)
| ErrRequest (code : Z) (url method : string) (response : bytes) (cause : error)
| ErrDetail (cause : error) (detail : GoValue).

(** The type assertion of [err] to a pointer to [RequestError]. *)
Definition is_RequestError (e : error) : bool :=
  match e with
  | ErrRequest _ _ _ _ _ => true
  | _ => false
  end.

Definition RequestError_StatusCode (e : error) : option Z :=
  match e with
  | ErrRequest code _ _ _ _ => Some code
  | _ => None
  end.

Definition RequestError_Response (e : error) : option bytes :=
  match e with
  | ErrRequest _ _ _ response _ => Some response
  | _ => None
  end.

Definition RequestError_Err (e : error) : option error :=
  match e with
  | ErrRequest _ _ _ _ cause => Some cause
  | _ => None
  end.

(** A Go result pair [(v, err)] of which exactly one side is used. *)
Inductive go_result (A : Type) : Type :=
| Ok (a : A)
| Fail (e : error).

Arguments Ok {A} a.
Arguments Fail {A} e.

Record Response := mkResponse {
  StatusCode : Z;
  Headers : http.Header;
  Body : bytes
}.

(** [type Result struct { Response *Response; Error error }] *)
Record Result := mkResult {
  Result_Response : option Response;
  Result_Error : option error
}.

(** ** What the library consumes *)

(** [context.Context], by what [ctx.Err()] answers once the round trip has
    failed. *)
Record context := mkContext {
  ctx_Err : option error
}.

(** [*url.URL]: the query string is the one field the library writes. *)
Record URL := mkURL {
  URL_rest : string;
  RawQuery : string
}.

(** [url.Values] *)
Abbreviation Values := (gmap string (list string)).

(** [*http.Request] as handed to the transport. *)
Record http_Request := mkRequest {
  Req_ctx : context;
  Req_Method : string;
  Req_URL : string;
  Req_Header : http.Header;
  Req_Body : option bytes
}.

(** [*http.Response] as it comes back: the body is a stream whose read may
    fail. *)
Record http_Response := mkHttpResponse {
  Resp_StatusCode : Z;
  Resp_Header : http.Header;
  Resp_Body : bytes;
  Resp_BodyErr : option error
}.

(** An [io.Reader] passed to [SetBody]: what is left to read, and the error
    a read ends with, if any. *)
Record reader := mkReader {
  rd_rest : bytes;
  rd_err : option error
}.

(** The collaborators. [json_Unmarshal data old] gives the new content of
    a destination holding [old] and the error, if any. [NewRequest_check]
    is the validation of method and URL by [http.NewRequestWithContext].
    [RoundTrip] stands for [httpClient.Do] and sees the requests sent
    before, so a server may answer by its history. [range_order] is the
    order in which a [for k, v := range m] visits [m], which Go leaves
    unspecified; one order per map value is enough here, since no property
    below depends on two visits agreeing or differing. *)
Record Env := mkEnv {
  url_JoinPath : string -> string -> go_result string;
  url_Parse : string -> go_result URL;
  URL_Query : URL -> Values;
  Values_Encode : Values -> string;
  URL_String : URL -> string;
  json_Marshal : GoValue -> go_result bytes;
  json_Unmarshal : bytes -> GoValue -> GoValue * option error;
  NewRequest_check : string -> string -> option error;
  RoundTrip : list http_Request -> http_Request -> go_result http_Response;
  range_order : gmap string string -> list (string * string)
}.

(** The one law of [range]: every entry is visited once. *)
Definition range_ok (E : Env) : Prop :=
  forall m : gmap string string, range_order E m ≡ₚ map_to_list m.

(** ** The client and the request object *)

Record client := mkClient {
  baseURL : string;
  globalHeaders : gmap string string;
  bearerToken : string;
  basicAuth_Username : string;
  basicAuth_Password : string
}.

(** What [SetBody] may receive, by the cases of the type switch of
    [prepareBody]; a nil interface is [None] in the [body] field. *)
Inductive body_value : Type :=
| BodyBytes (b : bytes)
| BodyString (s : string)
| BodyReader (rd : loc)
| BodyOther (v : boxed).

(** Callbacks are named; calling one is recorded in the world. *)
Abbreviation handler := nat.

Record request := mkReq {
  method : string;
  endpoint : string;
  ctx : option context;
  headers : option (gmap string string);
  body : option body_value;
  queryParams : option (gmap string string);
  successHandler : option handler;
  errorHandler : option handler;
  errorType : option boxed;
  result : option boxed;
  executed : bool;
  response : option Response;
  err : option error
}.

Inductive handler_call : Type :=
| CallSuccess (fn : handler) (resp : Response)
| CallError (fn : handler) (reqErr : error).

(** The client, the request objects it has handed out (every [request]
    points back to this one client), its [sync.Pool], the caller's values
    behind pointers, and two logs: the round trips made and the callbacks
    called, oldest first. *)
Record world := mkWorld {
  the_client : client;
  heap : gmap loc request;
  pool : list loc;
  objs : gmap loc GoValue;
  readers : gmap loc reader;
  roundtrips : list http_Request;
  handler_calls : list handler_call
}.

(** Field updates of a request object. *)
Definition set_headers (h : option (gmap string string)) (r : request) : request :=
  mkReq (method r) (endpoint r) (ctx r) h (body r) (queryParams r)
    (successHandler r) (errorHandler r) (errorType r) (result r)
    (executed r) (response r) (err r).

Definition set_body (b : option body_value) (r : request) : request :=
  mkReq (method r) (endpoint r) (ctx r) (headers r) b (queryParams r)
    (successHandler r) (errorHandler r) (errorType r) (result r)
    (executed r) (response r) (err r).

Definition set_queryParams (q : option (gmap string string)) (r : request) : request :=
  mkReq (method r) (endpoint r) (ctx r) (headers r) (body r) q
    (successHandler r) (errorHandler r) (errorType r) (result r)
    (executed r) (response r) (err r).

Definition set_successHandler (fn : option handler) (r : request) : request :=
  mkReq (method r) (endpoint r) (ctx r) (headers r) (body r) (queryParams r)
    fn (errorHandler r) (errorType r) (result r)
    (executed r) (response r) (err r).

Definition set_errorHandler (fn : option handler) (r : request) : request :=
  mkReq (method r) (endpoint r) (ctx r) (headers r) (body r) (queryParams r)
    (successHandler r) fn (errorType r) (result r)
    (executed r) (response r) (err r).

Definition set_errorType (v : option boxed) (r : request) : request :=
  mkReq (method r) (endpoint r) (ctx r) (headers r) (body r) (queryParams r)
    (successHandler r) (errorHandler r) v (result r)
    (executed r) (response r) (err r).

Definition set_executed (b : bool) (r : request) : request :=
  mkReq (method r) (endpoint r) (ctx r) (headers r) (body r) (queryParams r)
    (successHandler r) (errorHandler r) (errorType r) (result r)
    b (response r) (err r).

Definition set_response (resp : option Response) (r : request) : request :=
  mkReq (method r) (endpoint r) (ctx r) (headers r) (body r) (queryParams r)
    (successHandler r) (errorHandler r) (errorType r) (result r)
    (executed r) resp (err r).

Definition set_err (e : option error) (r : request) : request :=
  mkReq (method r) (endpoint r) (ctx r) (headers r) (body r) (queryParams r)
    (successHandler r) (errorHandler r) (errorType r) (result r)
    (executed r) (response r) e.

(** Field updates of the world. *)
Definition set_client (c : client) (w : world) : world :=
  mkWorld c (heap w) (pool w) (objs w) (readers w) (roundtrips w) (handler_calls w).

Definition set_heap (h : gmap loc request) (w : world) : world :=
  mkWorld (the_client w) h (pool w) (objs w) (readers w) (roundtrips w) (handler_calls w).

Definition set_pool (p : list loc) (w : world) : world :=
  mkWorld (the_client w) (heap w) p (objs w) (readers w) (roundtrips w) (handler_calls w).

Definition set_objs (o : gmap loc GoValue) (w : world) : world :=
  mkWorld (the_client w) (heap w) (pool w) o (readers w) (roundtrips w) (handler_calls w).

Definition set_readers (rs : gmap loc reader) (w : world) : world :=
  mkWorld (the_client w) (heap w) (pool w) (objs w) rs (roundtrips w) (handler_calls w).

Definition set_roundtrips (l : list http_Request) (w : world) : world :=
  mkWorld (the_client w) (heap w) (pool w) (objs w) (readers w) l (handler_calls w).

Definition set_handler_calls (l : list handler_call) (w : world) : world :=
  mkWorld (the_client w) (heap w) (pool w) (objs w) (readers w) (roundtrips w) l.

(** Update the request at [l] in place; nothing happens at an address that
    holds no request. *)
Definition update_request (l : loc) (f : request -> request) (w : world) : world :=
  match heap w !! l with
  | Some r => set_heap (<[l := f r]> (heap w)) w
  | None => w
  end.

(** ** The client: construction, the object pool, authentication *)

(** [New(config)]: only the base URL and the global headers of the
    configuration reach the request engine. *)
Definition New (cfg_BaseURL : string) (cfg_GlobalHeaders : gmap string string) : world :=
  mkWorld (mkClient cfg_BaseURL cfg_GlobalHeaders "" "" "") ∅ [] ∅ ∅ [] [].

(** [r.reset()] followed by the three assignments of a factory method. *)
Definition fresh_request (m ep : string) (c : context) : request :=
  mkReq m ep (Some c) None None None None None None None false None None.

(** [c.pool.Get()]: an object put back earlier, or a new one from
    [pool.New]. *)
Definition pool_Get (w : world) : loc * world :=
  match pool w with
  | l :: rest => (l, set_pool rest w)
  | [] => (fresh (dom (heap w)), w)
  end.

(** [c.pool.Put(r)] *)
Definition pool_Put (l : loc) (w : world) : world :=
  set_pool (l :: pool w) w.

(** The body shared by [GetWithContext], [PostWithContext], ...: take an
    object from the pool, reset it, bind method, endpoint and context. *)
Definition newRequest (m : string) (c : context) (ep : string) (w : world) : loc * world :=
  let '(l, w1) := pool_Get w in
  (l, set_heap (<[l := fresh_request m ep c]> (heap w1)) w1).

Definition background : context := mkContext None.

Definition GetWithContext := newRequest "GET".
Definition PostWithContext := newRequest "POST".
Definition PutWithContext := newRequest "PUT".
Definition PatchWithContext := newRequest "PATCH".
Definition DeleteWithContext := newRequest "DELETE".

Definition Get := GetWithContext background.
Definition Post := PostWithContext background.
Definition Put := PutWithContext background.
Definition Patch := PatchWithContext background.
Definition Delete := DeleteWithContext background.

Definition SetBearerToken (token : string) (w : world) : world :=
  let c := the_client w in
  set_client (mkClient (baseURL c) (globalHeaders c) token
                (basicAuth_Username c) (basicAuth_Password c)) w.

Definition WithBasicAuth (username password : string) (w : world) : world :=
  let c := the_client w in
  set_client (mkClient (baseURL c) (globalHeaders c) (bearerToken c)
                username password) w.

(** ** The builder methods *)

(** [for k, v := range src { dst[k] = v }] *)
Definition assign_all (E : Env) (src dst : gmap string string) : gmap string string :=
  foldl (fun m kv => <[kv.1 := kv.2]> m) dst (range_order E src).

(** A nil map is made on first use. *)
Definition or_make (m : option (gmap string string)) : gmap string string :=
  default ∅ m.

Definition SetHeader (key value : string) (l : loc) (w : world) : world :=
  update_request l (fun r => set_headers (Some (<[key := value]> (or_make (headers r)))) r) w.

Definition SetHeaders (E : Env) (hs : gmap string string) (l : loc) (w : world) : world :=
  update_request l (fun r => set_headers (Some (assign_all E hs (or_make (headers r)))) r) w.

Definition SetBody (b : option body_value) (l : loc) (w : world) : world :=
  update_request l (set_body b) w.

Definition SetQueryParam (key value : string) (l : loc) (w : world) : world :=
  update_request l
    (fun r => set_queryParams (Some (<[key := value]> (or_make (queryParams r)))) r) w.

Definition SetQueryParams (E : Env) (ps : gmap string string) (l : loc) (w : world) : world :=
  update_request l
    (fun r => set_queryParams (Some (assign_all E ps (or_make (queryParams r)))) r) w.

Definition SetError (v : option boxed) (l : loc) (w : world) : world :=
  update_request l (set_errorType v) w.

(** [fn(arg)] for a named callback. *)
Definition call (c : handler_call) (w : world) : world :=
  set_handler_calls (handler_calls w ++ [c]) w.

Definition OnSuccess (fn : handler) (l : loc) (w : world) : world :=
  let w1 := update_request l (set_successHandler (Some fn)) w in
  match heap w1 !! l with
  | Some r =>
      match executed r, err r, response r with
      | true, None, Some resp => call (CallSuccess fn resp) w1
      | _, _, _ => w1
      end
  | None => w1
  end.

Definition OnError (fn : handler) (l : loc) (w : world) : world :=
  let w1 := update_request l (set_errorHandler (Some fn)) w in
  match heap w1 !! l with
  | Some r =>
      match executed r, err r with
      | true, Some e => if is_RequestError e then call (CallError fn e) w1 else w1
      | _, _ => w1
      end
  | None => w1
  end.

(** ** Execution *)

(** The value behind an interface: the pointee of a pointer (nil when the
    pointer is), or the value itself. *)
Definition load (v : boxed) (w : world) : GoValue :=
  match v with
  | Ptr p => default VNil (objs w !! p)
  | Val x => x
  end.

(** [json.Unmarshal(data, v)]: only a non-nil pointer is a destination;
    what the decoder wrote stays written when it fails. *)
Definition Unmarshal (E : Env) (data : bytes) (v : boxed) (w : world) : option error * world :=
  match v with
  | Val _ => (Some (ErrExternal "json: Unmarshal(non-pointer)"), w)
  | Ptr p =>
      match objs w !! p with
      | None => (Some (ErrExternal "json: Unmarshal(nil)"), w)
      | Some old =>
          let '(new, e) := json_Unmarshal E data old in
          (e, set_objs (<[p := new]> (objs w)) w)
      end
  end.

(** [io.ReadAll(rd)]: the reader is left drained. *)
Definition io_ReadAll (rd : loc) (w : world) : go_result bytes * world :=
  match readers w !! rd with
  | Some s =>
      (match rd_err s with Some e => Fail e | None => Ok (rd_rest s) end,
       set_readers (<[rd := mkReader [] (rd_err s)]> (readers w)) w)
  | None => (Ok [], w)
  end.

Definition prepareBody (E : Env) (r : request) (w : world) : go_result bytes * world :=
  match body r with
  | None => (Ok [], w)
  | Some (BodyBytes b) => (Ok b, w)
  | Some (BodyString s) => (Ok (bytes_of_string s), w)
  | Some (BodyReader rd) => io_ReadAll rd w
  | Some (BodyOther v) => (json_Marshal E (load v w), w)
  end.

Definition set_all (E : Env) (m : gmap string string) (h : http.Header) : http.Header :=
  foldl (fun h kv => http.Header_Set kv.1 kv.2 h) h (range_order E m).

Definition addHeaders (E : Env) (c : client) (r : request) (h : http.Header) : http.Header :=
  let h := http.Header_Set "Content-Type" "application/json" h in
  let h := http.Header_Set "Accept" "application/json" h in
  let h := set_all E (globalHeaders c) h in
  set_all E (or_make (headers r)) h.

(** The two authentication statements of [execute], in their order. *)
Definition addAuth (c : client) (h : http.Header) : http.Header :=
  let h :=
    if negb (bearerToken c =? "")%string
    then http.Header_Set "Authorization" ("Bearer " ++ bearerToken c) h
    else h in
  if negb (basicAuth_Username c =? "")%string && negb (basicAuth_Password c =? "")%string
  then http.Header_Set "Authorization"
         (http.basicAuth (basicAuth_Username c) (basicAuth_Password c)) h
  else h.

Definition resolveURL (E : Env) (c : client) (ep : string) : go_result string :=
  if (baseURL c =? "")%string then Ok ep
  else
    match url_JoinPath E (baseURL c) ep with
    | Fail e => Fail (ErrWrap "failed to resolve URL" e)
    | Ok resolvedURL => Ok resolvedURL
    end.

(** The query block of [execute]. *)
Definition addQuery (E : Env) (r : request) (u : URL) : URL :=
  if (0 <? size (or_make (queryParams r)))%nat then
    let q := foldl (fun q kv => <[kv.1 := [kv.2]]> q) (URL_Query E u)
                   (range_order E (or_make (queryParams r))) in
    mkURL (URL_rest u) (Values_Encode E q)
  else u.

(** [http.NewRequestWithContext]: a nil context is refused, an empty method
    means GET, the header starts empty. *)
Definition NewRequestWithContext (E : Env) (c : option context) (m url : string)
    (b : option bytes) : go_result http_Request :=
  match c with
  | None => Fail (ErrExternal "net/http: nil Context")
  | Some c =>
      match NewRequest_check E m url with
      | Some e => Fail e
      | None => Ok (mkRequest c (if (m =? "")%string then "GET" else m) url ∅ b)
      end
  end.

Definition with_Header (h : http.Header) (q : http_Request) : http_Request :=
  mkRequest (Req_ctx q) (Req_Method q) (Req_URL q) h (Req_Body q).

(** [r.err = e; r.executed = true; return] *)
Definition failed (e : error) (r : request) : request :=
  set_executed true (set_err (Some e) r).

(** Write the request object back at its address. *)
Definition store (l : loc) (r : request) (w : world) : world :=
  set_heap (<[l := r]> (heap w)) w.

(** The part of [execute] after the body has been read: the status check. *)
Definition conclude (E : Env) (l : loc) (r : request) (q : http_Request)
    (resp : http_Response) (w : world) : world :=
  let code := Resp_StatusCode resp in
  let data := Resp_Body resp in
  if 400 <=? code then
    let reqErr cause := ErrRequest code (Req_URL q) (Req_Method q) data cause in
    match errorType r with
    | Some dest =>
        let '(uerr, w1) := Unmarshal E data dest w in
        match uerr with
        | None => store l (failed (reqErr (ErrStatusDetail code (load dest w1))) r) w1
        | Some _ => store l (failed (reqErr (ErrStatus code)) r) w1
        end
    | None => store l (failed (reqErr (ErrStatus code)) r) w
    end
  else
    let r1 := set_response (Some (mkResponse code (Resp_Header resp) data)) r in
    match result r with
    | Some dest =>
        let '(uerr, w1) := Unmarshal E data dest w in
        match uerr with
        | Some e => store l (failed (ErrWrap "failed to unmarshal response" e) r1) w1
        | None => store l (set_executed true r1) w1
        end
    | None => store l (set_executed true r1) w
    end.

(** The part of [execute] from the round trip on. *)
Definition send (E : Env) (l : loc) (r : request) (q : http_Request) (w : world) : world :=
  let w1 := set_roundtrips (roundtrips w ++ [q]) w in
  match RoundTrip E (roundtrips w) q with
  | Fail e =>
      match ctx_Err (Req_ctx q) with
      | Some ce => store l (failed (ErrWrap "request canceled or timed out" ce) r) w1
      | None => store l (failed (ErrWrap "request failed" e) r) w1
      end
  | Ok resp =>
      match Resp_BodyErr resp with
      | Some e => store l (failed (ErrWrap "error reading response body" e) r) w1
      | None => conclude E l r q resp w1
      end
  end.

(** The part of [execute] before the round trip, whose early returns all
    have the shape [r.err = ...; r.executed = true; return]: the request
    for the transport, or the error to store. Draining a reader body
    changes the world. *)
Definition build (E : Env) (r : request) (w : world) : go_result http_Request * world :=
  match resolveURL E (the_client w) (endpoint r) with
  | Fail e => (Fail (ErrWrap "failed to resolve URL" e), w)
  | Ok resolvedURL =>
  match url_Parse E resolvedURL with
  | Fail e => (Fail (ErrWrap "invalid URL" e), w)
  | Ok parsedURL =>
  let parsedURL := addQuery E r parsedURL in
  let '(prepared, w1) :=
    match body r with
    | Some _ =>
        let '(b, w1) := prepareBody E r w in
        (match b with Ok bodyBytes => Ok (Some bodyBytes) | Fail e => Fail e end, w1)
    | None => (Ok None, w)
    end in
  match prepared with
  | Fail e => (Fail (ErrWrap "failed to prepare request body" e), w1)
  | Ok bodyReader =>
  match NewRequestWithContext E (ctx r) (method r) (URL_String E parsedURL) bodyReader with
  | Fail e => (Fail (ErrWrap "failed to create request" e), w1)
  | Ok req =>
      let req := with_Header (addHeaders E (the_client w1) r (Req_Header req)) req in
      let req := with_Header (addAuth (the_client w1) (Req_Header req)) req in
      (Ok req, w1)
  end end end end.

Definition execute (E : Env) (l : loc) (w : world) : world :=
  match heap w !! l with
  | None => w
  | Some r =>
      if executed r then w
      else
        match build E r w with
        | (Fail e, w1) => store l (failed e r) w1
        | (Ok req, w1) => send E l r req w1
        end
  end.

(** [Result()]: execute unless executed, hand the object back to the pool,
    return the stored pair. *)
Definition request_Result (E : Env) (l : loc) (w : world) : (option Response * option error) * world :=
  match heap w !! l with
  | None => ((None, None), w)
  | Some r =>
      let w1 := if executed r then w else execute E l w in
      match heap w1 !! l with
      | Some r1 => ((response r1, err r1), pool_Put l w1)
      | None => ((None, None), w1)
      end
  end.

Inductive into_result : Type :=
| IntoReturn (e : option error)
| IntoPanic.

(** [Into(v)]; with neither an error nor a response, [resp.Body]
    dereferences nil. The error destination is read from the object after
    [Result] has released it. *)
Definition Into (E : Env) (v : option boxed) (l : loc) (w : world) : into_result * world :=
  let '((resp, e), w1) := request_Result E l w in
  match e with
  | Some e =>
      match is_RequestError e, RequestError_Response e, heap w1 !! l ≫= errorType with
      | true, Some data, Some dest =>
          let '(uerr, w2) := Unmarshal E data dest w1 in
          match uerr with
          | None => (IntoReturn (Some (ErrDetail e (load dest w2))), w2)
          | Some _ => (IntoReturn (Some e), w2)
          end
      | _, _, _ => (IntoReturn (Some e), w1)
      end
  | None =>
      match resp with
      | Some rsp =>
          match v with
          | Some dest =>
              let '(uerr, w2) := Unmarshal E (Body rsp) dest w1 in
              (IntoReturn uerr, w2)
          | None => (IntoReturn (Some (ErrExternal "json: Unmarshal(nil)")), w1)
          end
      | None => (IntoPanic, w1)
      end
  end.

(** ** Goroutines

    What a blocking operation of a goroutine comes to. *)
Inductive run (A : Type) : Type :=
| Done (a : A)
| Panic (msg : string)
| Blocked.

Arguments Done {A} a.
Arguments Panic {A} msg.
Arguments Blocked {A}.

(** ** The batch executor *)

Record batchRequest := mkBatch {
  requests : list loc;
  responses : list (option Response);
  errors : list (option error);
  batch_wg : nat
}.

Definition Batch : batchRequest := mkBatch [] [] [] 0.

Definition Add (rb : loc) (b : batchRequest) : batchRequest :=
  mkBatch (requests b ++ [rb]) (responses b) (errors b) (batch_wg b).

(** Where a goroutine started by [Execute] stands: before [rb.Result()],
    holding the pair before taking the lock, or returned. *)
Inductive batch_goroutine : Type :=
| BCall (rb : loc)
| BAppend (resp : option Response) (e : option error)
| BReturned.

Record batch_state := mkBatchState {
  bs_batch : batchRequest;
  bs_goroutines : list batch_goroutine;
  bs_world : world
}.

(** [b.wg.Add(len(b.requests))] and the loop of [go] statements: goroutine
    [i] is the one started for [b.requests[i]]. *)
Definition Execute_spawn (b : batchRequest) (w : world) : batch_state :=
  mkBatchState
    (mkBatch (requests b) (responses b) (errors b)
       (batch_wg b + length (requests b))%nat)
    (BCall <$> requests b) w.

(** One step of goroutine [i]: the call of [Result], or the locked pair of
    appends followed by the deferred [wg.Done()]. *)
Definition batch_step (E : Env) (i : nat) (s : batch_state) : option batch_state :=
  match bs_goroutines s !! i with
  | Some (BCall rb) =>
      let '((resp, e), w1) := request_Result E rb (bs_world s) in
      Some (mkBatchState (bs_batch s) (<[i := BAppend resp e]> (bs_goroutines s)) w1)
  | Some (BAppend resp e) =>
      let b := bs_batch s in
      Some (mkBatchState
              (mkBatch (requests b) (responses b ++ [resp]) (errors b ++ [e])
                 (batch_wg b - 1)%nat)
              (<[i := BReturned]> (bs_goroutines s)) (bs_world s))
  | _ => None
  end.

Fixpoint batch_run (E : Env) (sched : list nat) (s : batch_state) : option batch_state :=
  match sched with
  | [] => Some s
  | i :: rest =>
      match batch_step E i s with
      | Some s1 => batch_run E rest s1
      | None => None
      end
  end.

(** [Execute(ctx)] under a schedule: the steps the goroutines take, in
    order. It returns once [b.wg.Wait()] finds the counter at zero; [None]
    when the schedule asks a returned goroutine to step or leaves [Wait]
    blocked. The [ctx] argument is not used. *)
Definition Execute (E : Env) (sched : list nat) (_ : context) (b : batchRequest)
    (w : world) : option ((list (option Response) * list (option error)) * batch_state) :=
  match batch_run E sched (Execute_spawn b w) with
  | Some s =>
      if (batch_wg (bs_batch s) =? 0)%nat
      then Some ((responses (bs_batch s), errors (bs_batch s)), s)
      else None
  | None => None
  end.

(** A schedule that lets each of [n] goroutines take its two steps. *)
Definition complete_schedule (n : nat) (sched : list nat) : Prop :=
  forall i, count_occ Nat.eq_dec sched i = if decide (i < n)%nat then 2%nat else 0%nat.

(** ** The worker pool *)

Record chan (A : Type) := mkChan {
  ch_buf : list A;
  ch_cap : nat;
  ch_closed : bool
}.

Arguments mkChan {A} _ _ _.
Arguments ch_buf {A} _.
Arguments ch_cap {A} _.
Arguments ch_closed {A} _.

(** [make(chan A, n)] *)
Definition make_chan {A : Type} (n : nat) : chan A := mkChan [] n false.

(** [c <- x] on a buffered channel. *)
Definition chan_send {A : Type} (x : A) (c : chan A) : run (chan A) :=
  if ch_closed c then Panic "send on closed channel"
  else if (length (ch_buf c) <? ch_cap c)%nat
       then Done (mkChan (ch_buf c ++ [x]) (ch_cap c) false)
       else Blocked.

(** [close(c)] *)
Definition chan_close {A : Type} (c : chan A) : run (chan A) :=
  if ch_closed c then Panic "close of closed channel"
  else Done (mkChan (ch_buf c) (ch_cap c) true).

(** [x, ok := <-c]: [Some x] for a value, [None] for the zero value of a
    closed and drained channel. *)
Definition chan_recv {A : Type} (c : chan A) : run (option A * chan A) :=
  match ch_buf c with
  | x :: rest => Done (Some x, mkChan rest (ch_cap c) (ch_closed c))
  | [] => if ch_closed c then Done (None, c) else Blocked
  end.

(** A worker: in its [select], blocked on [p.results <- ...] with the
    result of a job, or returned. *)
Inductive worker : Type :=
| WSelect
| WPublish (res : Result)
| WReturned.

(** The goroutine of one [Submit]: before [rb.Result()], before the send,
    before the close, finished. *)
Inductive submitter : Type :=
| SCall (rb : loc)
| SSend (res : Result)
| SClose
| SFinished.

(** One call of [Submit]: its goroutine, the channel only the two of them
    know ([resultChan]), and what the caller has received from it. *)
Record submission := mkSubmission {
  sub_goroutine : submitter;
  resultChan : chan Result;
  sub_received : list Result
}.

(** [jobs] and [results] are unbuffered: they hold the values of senders
    waiting for a receiver. [shutdown] is true once the channel is closed. *)
Record requestPool := mkPool {
  workers : Z;
  jobs : list loc;
  results : list Result;
  pool_wg : nat;
  shutdown : bool
}.

Record pool_state := mkPoolState {
  ps_pool : requestPool;
  ps_workers : list worker;
  ps_submissions : list submission;
  ps_world : world
}.

(** [c.Pool(workers)] with [p.start()]. *)
Definition Pool (n : Z) (w : world) : pool_state :=
  let n := if n <=? 0 then 10 else n in
  mkPoolState (mkPool n [] [] (Z.to_nat n) false)
    (replicate (Z.to_nat n) WSelect) [] w.

(** [Submit(rb)]: the index of the new submission stands for the channel
    returned. *)
Definition Submit (rb : loc) (s : pool_state) : nat * pool_state :=
  (length (ps_submissions s),
   mkPoolState (ps_pool s) (ps_workers s)
     (ps_submissions s ++ [mkSubmission (SCall rb) (make_chan 1) []])
     (ps_world s)).

(** A worker's step says which case its [select] takes when both are
    ready. *)
Inductive goroutine : Type :=
| Worker (i : nat) (prefer_job : bool)
| Submitter (i : nat).

(** A step of the goroutine of submission [i]. *)
Definition submitter_step (E : Env) (i : nat) (s : pool_state) : run pool_state :=
  match ps_submissions s !! i with
  | Some sub =>
      let put sub1 w :=
        mkPoolState (ps_pool s) (ps_workers s) (<[i := sub1]> (ps_submissions s)) w in
      match sub_goroutine sub with
      | SCall rb =>
          let '((resp, e), w1) := request_Result E rb (ps_world s) in
          Done (put (mkSubmission (SSend (mkResult resp e)) (resultChan sub)
                       (sub_received sub)) w1)
      | SSend res =>
          match chan_send res (resultChan sub) with
          | Done c => Done (put (mkSubmission SClose c (sub_received sub)) (ps_world s))
          | Panic msg => Panic msg
          | Blocked => Blocked
          end
      | SClose =>
          match chan_close (resultChan sub) with
          | Done c => Done (put (mkSubmission SFinished c (sub_received sub)) (ps_world s))
          | Panic msg => Panic msg
          | Blocked => Blocked
          end
      | SFinished => Blocked
      end
  | None => Blocked
  end.

(** A step of worker [i]: in its [select] it takes a job when a sender
    waits on [p.jobs], returns (running the deferred [p.wg.Done()]) when
    [p.shutdown] is closed, and blocks when neither is ready; [p.results]
    has no receiver anywhere, so a worker holding a result stays blocked. *)
Definition worker_step (E : Env) (i : nat) (prefer_job : bool) (s : pool_state) : run pool_state :=
  let p := ps_pool s in
  let leave :=
    Done (mkPoolState
            (mkPool (workers p) (jobs p) (results p) (pool_wg p - 1)%nat (shutdown p))
            (<[i := WReturned]> (ps_workers s)) (ps_submissions s) (ps_world s)) in
  match ps_workers s !! i with
  | Some WSelect =>
      match jobs p with
      | job :: rest =>
          if shutdown p && negb prefer_job then leave
          else
            let '((resp, e), w1) := request_Result E job (ps_world s) in
            Done (mkPoolState (mkPool (workers p) rest (results p) (pool_wg p) (shutdown p))
                    (<[i := WPublish (mkResult resp e)]> (ps_workers s))
                    (ps_submissions s) w1)
      | [] => if shutdown p then leave else Blocked
      end
  | _ => Blocked
  end.

Definition pool_step (E : Env) (g : goroutine) (s : pool_state) : run pool_state :=
  match g with
  | Worker i prefer_job => worker_step E i prefer_job s
  | Submitter i => submitter_step E i s
  end.

(** The caller's [<-ch] on the channel of submission [i]; a received value
    is noted in [sub_received]. *)
Definition receive (i : nat) (s : pool_state) : run (option Result * pool_state) :=
  match ps_submissions s !! i with
  | Some sub =>
      match chan_recv (resultChan sub) with
      | Done (x, c) =>
          let got := match x with Some res => [res] | None => [] end in
          Done (x, mkPoolState (ps_pool s) (ps_workers s)
                     (<[i := mkSubmission (sub_goroutine sub) c (sub_received sub ++ got)]>
                        (ps_submissions s))
                     (ps_world s))
      | Panic msg => Panic msg
      | Blocked => Blocked
      end
  | None => Blocked
  end.

(** What may happen while a pool is in use. *)
Inductive pool_event : Type :=
| Step (g : goroutine)
| Receive (i : nat).

Definition pool_do (E : Env) (ev : pool_event) (s : pool_state) : run pool_state :=
  match ev with
  | Step g => pool_step E g s
  | Receive i =>
      match receive i s with
      | Done (_, s1) => Done s1
      | Panic msg => Panic msg
      | Blocked => Blocked
      end
  end.

Fixpoint pool_run (E : Env) (evs : list pool_event) (s : pool_state) : run pool_state :=
  match evs with
  | [] => Done s
  | ev :: rest =>
      match pool_do E ev s with
      | Done s1 => pool_run E rest s1
      | Panic msg => Panic msg
      | Blocked => Blocked
      end
  end.

(** [Wait()]: close [p.shutdown], then [p.wg.Wait()] while the goroutines
    take the steps of [evs]; it returns once the counter is zero. *)
Definition Wait (E : Env) (evs : list pool_event) (s : pool_state) : run pool_state :=
  let p := ps_pool s in
  if shutdown p then Panic "close of closed channel"
  else
    let s1 := mkPoolState (mkPool (workers p) (jobs p) (results p) (pool_wg p) true)
                (ps_workers s) (ps_submissions s) (ps_world s) in
    match pool_run E evs s1 with
    | Done s2 => if (pool_wg (ps_pool s2) =? 0)%nat then Done s2 else Blocked
    | Panic msg => Panic msg
    | Blocked => Blocked
    end.

(** ** A concrete world: the server of the test suite

    [setupTestServer] of goclient_test.go and plain stand-ins for net/url
    and encoding/json, enough to run the engine on examples. *)

Module demo.

Definition quote : string := String (ascii_of_nat 34) EmptyString.

(** A small JSON encoder. *)
Fixpoint encode (v : GoValue) : string :=
  match v with
  | VNil => "null"
  | VBool true => "true"
  | VBool false => "false"
  | VInt z => pretty z
  | VString s => quote ++ s ++ quote
  | VSlice l => "[" ++ String.concat "," (List.map encode l) ++ "]"
  | VStruct fields =>
      "{" ++ String.concat ","
               (List.map (fun kv => let '(k, x) := kv in quote ++ k ++ quote ++ ":" ++ encode x)
                  fields) ++ "}"
  end.

Definition post1 : GoValue :=
  VStruct [("id", VInt 1); ("title", VString "Test Post");
           ("body", VString "This is a test post"); ("userId", VInt 1)].

Definition notFound : GoValue :=
  VStruct [("error", VString "Not Found"); ("message", VString "Post not found")].

(** The decoder knows the documents the server sends. *)
Definition decode (data : bytes) (old : GoValue) : GoValue * option error :=
  let text := string_of_list_byte data in
  if (text =? encode post1)%string then (post1, None)
  else if (text =? encode notFound)%string then (notFound, None)
  else (old, Some (ErrExternal "invalid character")).

Definition server : string := "http://127.0.0.1".

Definition json_header : http.Header := {[ "Content-Type" := ["application/json"] ]}.

(** The routes /posts/1 and /posts/404 of [setupTestServer]; the mux
    answers 404 elsewhere. *)
Definition handle (q : http_Request) : http_Response :=
  if decide (Req_URL q = server ++ "/posts/1") then
    if decide (Req_Method q = "GET")
    then mkHttpResponse 200 json_header (bytes_of_string (encode post1)) None
    else mkHttpResponse 405 ∅ (bytes_of_string "Method not allowed") None
  else if decide (Req_URL q = server ++ "/posts/404") then
    mkHttpResponse 404 json_header (bytes_of_string (encode notFound)) None
  else mkHttpResponse 404 ∅ (bytes_of_string "404 page not found") None.

Definition show_url (u : URL) : string :=
  if (RawQuery u =? "")%string then URL_rest u else URL_rest u ++ "?" ++ RawQuery u.

Definition env_with (order : gmap string string -> list (string * string)) : Env :=
  mkEnv
    (fun base ep => Ok (base ++ ep))
    (fun s => Ok (mkURL s ""))
    (fun _ => ∅)
    (fun q => String.concat "&"
                ((fun kv => kv.1 ++ "=" ++ String.concat "," kv.2) <$> map_to_list q))
    show_url
    (fun v => Ok (bytes_of_string (encode v)))
    decode
    (fun _ _ => None)
    (fun _ q => Ok (handle q))
    order.

(** [range] in the order of [map_to_list], and in the opposite order. *)
Definition env : Env := env_with map_to_list.
Definition env_rev : Env := env_with (fun m => reverse (map_to_list m)).

(** [client := New(Config{BaseURL: server.URL})] *)
Definition w0 : world := New server ∅.

End demo.

(** ** Notions the properties are stated with *)

(** Exactly one side of a [(response, error)] pair is non-nil. *)
Definition exactly_one (resp : option Response) (e : option error) : Prop :=
  (is_Some resp ∧ e = None) ∨ (resp = None ∧ is_Some e).

(** What holds of every request object the client hands out: no method
    assigns the [result] field, and the stored pair is empty before the
    execution and one-sided after it. *)
Definition req_ok (r : request) : Prop :=
  result r = None ∧
  if executed r then exactly_one (response r) (err r)
  else response r = None ∧ err r = None.

Definition world_ok (w : world) : Prop :=
  forall l r, heap w !! l = Some r -> req_ok r.

(** The calls a program can make on a client and its request objects, and
    the writes it can make to values of its own. *)
Inductive api_call : Type :=
| DoNewRequest (m : string) (c : context) (ep : string)
| DoSetBearerToken (token : string)
| DoWithBasicAuth (username password : string)
| DoSetHeader (key value : string) (l : loc)
| DoSetHeaders (hs : gmap string string) (l : loc)
| DoSetBody (b : option body_value) (l : loc)
| DoSetQueryParam (key value : string) (l : loc)
| DoSetQueryParams (ps : gmap string string) (l : loc)
| DoSetError (v : option boxed) (l : loc)
| DoOnSuccess (fn : handler) (l : loc)
| DoOnError (fn : handler) (l : loc)
| DoResult (l : loc)
| DoInto (v : option boxed) (l : loc)
| DoWriteValue (p : loc) (v : GoValue)
| DoWriteReader (rd : loc) (s : reader).

Definition do_call (E : Env) (c : api_call) (w : world) : world :=
  match c with
  | DoNewRequest m c ep => (newRequest m c ep w).2
  | DoSetBearerToken token => SetBearerToken token w
  | DoWithBasicAuth username password => WithBasicAuth username password w
  | DoSetHeader key value l => SetHeader key value l w
  | DoSetHeaders hs l => SetHeaders E hs l w
  | DoSetBody b l => SetBody b l w
  | DoSetQueryParam key value l => SetQueryParam key value l w
  | DoSetQueryParams ps l => SetQueryParams E ps l w
  | DoSetError v l => SetError v l w
  | DoOnSuccess fn l => OnSuccess fn l w
  | DoOnError fn l => OnError fn l w
  | DoResult l => (request_Result E l w).2
  | DoInto v l => (Into E v l w).2
  | DoWriteValue p v => set_objs (<[p := v]> (objs w)) w
  | DoWriteReader rd s => set_readers (<[rd := s]> (readers w)) w
  end.

Definition do_calls (E : Env) (cs : list api_call) (w : world) : world :=
  foldl (fun w c => do_call E c w) w cs.

(** The worlds a program can bring about, starting from [New]. *)
Definition reachable (E : Env) (w : world) : Prop :=
  exists base hs cs, w = do_calls E cs (New base hs).

(** The batch after [Batch()] and one [Add] per element of [rbs]. *)
Definition batch_of (rbs : list loc) : batchRequest :=
  foldl (fun b rb => Add rb b) Batch rbs.

(** The header calls made on a request, in program order. *)
Inductive header_call : Type :=
| CallSetHeader (key value : string)
| CallSetHeaders (hs : gmap string string).

Definition do_header_call (E : Env) (l : loc) (w : world) (c : header_call) : world :=
  match c with
  | CallSetHeader key value => SetHeader key value l w
  | CallSetHeaders hs => SetHeaders E hs l w
  end.

(** The per-request mapping the calls leave behind, as a map over key
    strings: a later write to the same string replaces an earlier one. *)
Definition written (cs : list header_call) : gmap string string :=
  foldl (fun m c =>
           match c with
           | CallSetHeader key value => <[key := value]> m
           | CallSetHeaders hs => hs ∪ m
           end) ∅ cs.

(** The value an iteration in the order [kvs] leaves under the header name
    [n]: that of the last key visited whose canonical form is [n]. *)
Definition last_for (n : string) (kvs : list (string * string)) : option string :=
  foldl (fun acc kv =>
           if decide (textproto.CanonicalMIMEHeaderKey kv.1 = n) then Some kv.2 else acc)
        None kvs.

(** The key strings of [m] that stand for the header name [n]. *)
Definition names (n : string) (m : gmap string string) : gmap string string :=
  filter (fun kv => textproto.CanonicalMIMEHeaderKey kv.1 = n) m.

Definition default_headers : http.Header :=
  http.Header_Set "Accept" "application/json"
    (http.Header_Set "Content-Type" "application/json" ∅).

(** The header mapping as the specification words it: the three layers
    written one after the other, each write in program order, so that the
    later layer and the later write win on every collision of header
    names. *)
Definition spec_headers (global : list (string * string)) (cs : list header_call)
    : http.Header :=
  let set_list kvs h := foldl (fun h kv => http.Header_Set kv.1 kv.2 h) h kvs in
  foldl (fun h c =>
           match c with
           | CallSetHeader key value => http.Header_Set key value h
           | CallSetHeaders hs => set_list (map_to_list hs) h
           end)
        (set_list global default_headers) cs.

(** What [Unmarshal], [prepareBody] and [build] keep: they write to the
    caller's values and readers only. *)
Definition same_engine_state (w w1 : world) : Prop :=
  the_client w1 = the_client w ∧ heap w1 = heap w ∧ pool w1 = pool w ∧
  roundtrips w1 = roundtrips w ∧ handler_calls w1 = handler_calls w.

(** The three assignments an execution can make to a request object. *)
Definition settle (resp : option Response) (e : option error) (r : request) : request :=
  set_executed true (set_err e (set_response resp r)).

(** How the world [w1] in which the settled object is stored, and the pair
    it is settled with, relate to the world [w] and the object [r] the
    execution started from. A request goes to the transport exactly when
    [build] returns one. Either the object keeps its response and gets an
    error, or it gets a response and keeps its error, or it gets both (a
    result destination is set and decoding into it has failed). *)
Definition execution_of (E : Env) (r : request) (w : world)
    (resp : option Response) (e : option error) (w1 : world) : Prop :=
  the_client w1 = the_client w ∧ heap w1 = heap w ∧ pool w1 = pool w ∧
  handler_calls w1 = handler_calls w ∧
  (exists x w0,
     build E r w = (x, w0) ∧ readers w1 = readers w0 ∧
     roundtrips w1 =
       match x with
       | Ok q => (roundtrips w ++ [q])%list
       | Fail _ => roundtrips w
       end) ∧
  ((resp = response r ∧ is_Some e) ∨
   (is_Some resp ∧ e = err r) ∨
   (is_Some resp ∧ is_Some e ∧ is_Some (result r))).

(** The calls [OnSuccess] makes: one, with the stored response, when the
    object has executed without error; none otherwise. *)
Definition success_calls (fn : handler) (o : option request) : list handler_call :=
  match o with
  | Some r =>
      match executed r, err r, response r with
      | true, None, Some resp => [CallSuccess fn resp]
      | _, _, _ => []
      end
  | None => []
  end.

(** The calls [OnError] makes: one, with the stored error, when the object
    has executed and its error is a [RequestError]; none otherwise. *)
Definition error_calls (fn : handler) (o : option request) : list handler_call :=
  match o with
  | Some r =>
      match executed r, err r with
      | true, Some e => if is_RequestError e then [CallError fn e] else []
      | _, _ => []
      end
  | None => []
  end.


(** The client of the bearer and basic tests at once. *)
Definition both_auth : world :=
  WithBasicAuth "testuser" "testpass" (SetBearerToken "valid-token" demo.w0).

(** The steps a goroutine of [Execute] has yet to take. *)
Definition steps_left (g : batch_goroutine) : nat :=
  match g with
  | BCall _ => 2
  | BAppend _ _ => 1
  | BReturned => 0
  end.

(** How many goroutines have returned. *)
Definition returned (gs : list batch_goroutine) : nat :=
  sum_list_with (fun g => match g with BReturned => 1 | _ => 0 end)%nat gs.

Definition goroutine_ok (w : world) (g : batch_goroutine) : Prop :=
  match g with
  | BCall rb => is_Some (heap w !! rb)
  | BAppend resp e => exactly_one resp e
  | BReturned => True
  end.

(** What holds of a running [Execute] on [n] requests with the steps of
    [sched] still to come: every goroutine has its remaining steps in
    [sched]; the two output slices have one entry per returned goroutine,
    one-sided at every index; the wait group counts the others. *)
Definition batch_inv (n : nat) (sched : list nat) (s : batch_state) : Prop :=
  let b := bs_batch s in
  let gs := bs_goroutines s in
  world_ok (bs_world s) ∧
  length gs = n ∧
  (forall i, count_occ Nat.eq_dec sched i = from_option steps_left 0%nat (gs !! i)) ∧
  Forall (goroutine_ok (bs_world s)) gs ∧
  length (responses b) = returned gs ∧
  (batch_wg b + returned gs = n)%nat ∧
  Forall2 exactly_one (responses b) (errors b).

(** What holds of a running [Execute] on [n] requests under any schedule
    whatever: the two output slices have one entry per returned goroutine,
    one-sided at every index, and the wait group counts the goroutines that
    have not returned. *)
Definition batch_sound (n : nat) (s : batch_state) : Prop :=
  let b := bs_batch s in
  let gs := bs_goroutines s in
  world_ok (bs_world s) ∧
  length gs = n ∧
  Forall (goroutine_ok (bs_world s)) gs ∧
  length (responses b) = returned gs ∧
  (batch_wg b + returned gs = n)%nat ∧
  Forall2 exactly_one (responses b) (errors b).

(** What holds of one submission through its life: the channel has one
    slot; nothing is in it or received from it before the send; from the
    send on, exactly one result has gone through it, one-sided; it is
    closed exactly when the goroutine has finished. *)
Definition submission_inv (w : world) (sub : submission) : Prop :=
  let c := resultChan sub in
  ch_cap c = 1%nat ∧
  match sub_goroutine sub with
  | SCall rb =>
      is_Some (heap w !! rb) ∧ ch_buf c = [] ∧ sub_received sub = [] ∧ ch_closed c = false
  | SSend res =>
      exactly_one (Result_Response res) (Result_Error res) ∧
      ch_buf c = [] ∧ sub_received sub = [] ∧ ch_closed c = false
  | SClose =>
      (exists res, (sub_received sub ++ ch_buf c)%list = [res] ∧
                   exactly_one (Result_Response res) (Result_Error res)) ∧
      ch_closed c = false
  | SFinished =>
      (exists res, (sub_received sub ++ ch_buf c)%list = [res] ∧
                   exactly_one (Result_Response res) (Result_Error res)) ∧
      ch_closed c = true
  end.

(** A worker that never took a job. *)
Definition idle (wk : worker) : Prop := wk = WSelect ∨ wk = WReturned.

(** What holds of a pool however it is used: nothing is ever sent on
    [p.jobs], so no worker ever leaves its [select] with a job. *)
Definition pool_inv (s : pool_state) : Prop :=
  world_ok (ps_world s) ∧
  jobs (ps_pool s) = [] ∧ results (ps_pool s) = [] ∧
  Forall idle (ps_workers s) ∧
  Forall (submission_inv (ps_world s)) (ps_submissions s).

(** The status code in each half of a [(response, error)] pair. *)
Definition response_status (resp : option Response) : option Z :=
  match resp with
  | Some r => Some (StatusCode r)
  | None => None
  end.

Definition error_status (e : option error) : option Z :=
  match e with
  | Some e => RequestError_StatusCode e
  | None => None
  end.

(** ** Configuration (config.go) *)

(** [time.Duration], in nanoseconds. *)
Abbreviation Duration := Z.

Definition Second : Duration := 1000000000.

(** [http.RoundTripper] values, by name. *)
Abbreviation RoundTripper := nat.

Record Config := mkConfig {
  BaseURL : string;
  Timeout : Duration;
  GlobalHeaders : option (gmap string string);
  Interceptor : option RoundTripper;
  MaxIdleConns : Z;
  MaxIdleConnsPerHost : Z;
  MaxConnsPerHost : Z;
  IdleConnTimeout : Duration;
  TLSHandshakeTimeout : Duration;
  DisableKeepAlives : bool;
  DisableCompression : bool;
  ResponseHeaderTimeout : Duration
}.

(** [defaultConfig(config...)]: the first configuration passed, as it is;
    the package defaults when none is passed. *)
Definition defaultConfig (config : list Config) : Config :=
  let cfg :=
    mkConfig "" (30 * Second) None None 100 10 0 (90 * Second) (10 * Second)
      false false (10 * Second) in
  match config with
  | first :: _ => first
  | [] => cfg
  end.

(** The transport of the [http.Client] that [New] builds. *)
Inductive Transport : Type :=
| DefaultTransport
| Custom (rt : RoundTripper).

(** [&http.Client{Timeout: ..., Transport: ...}] *)
Record http_Client := mkHttpClient {
  Client_Timeout : Duration;
  Client_Transport : Transport
}.

(** [New(config...)] in full: the [http.Client] it builds, the interceptor
    it keeps, and the world of the new client. *)
Definition New_from (config : list Config) : http_Client * option RoundTripper * world :=
  let cfg := defaultConfig config in
  let transport :=
    match Interceptor cfg with
    | Some rt => Custom rt
    | None => DefaultTransport
    end in
  (mkHttpClient (Timeout cfg) transport, Interceptor cfg,
   New (BaseURL cfg) (or_make (GlobalHeaders cfg))).

(** ** More notions the properties are stated with *)

(** The calls of the [RequestBuilder] interface that configure a request. *)
Definition is_builder (c : api_call) : bool :=
  match c with
  | DoSetHeader _ _ _ | DoSetHeaders _ _ | DoSetBody _ _
  | DoSetQueryParam _ _ _ | DoSetQueryParams _ _ | DoSetError _ _
  | DoOnSuccess _ _ | DoOnError _ _ => true
  | _ => false
  end.

(** The query-parameter calls made on a request, in program order. *)
Inductive query_call : Type :=
| CallSetQueryParam (key value : string)
| CallSetQueryParams (ps : gmap string string).

Definition do_query_call (E : Env) (l : loc) (w : world) (c : query_call) : world :=
  match c with
  | CallSetQueryParam key value => SetQueryParam key value l w
  | CallSetQueryParams ps => SetQueryParams E ps l w
  end.

(** The mapping the query calls leave behind: a later write to a key
    replaces an earlier one. *)
Definition params_written (cs : list query_call) : gmap string string :=
  foldl (fun m c =>
           match c with
           | CallSetQueryParam key value => <[key := value]> m
           | CallSetQueryParams ps => ps ∪ m
           end) ∅ cs.

(** What [q.Set(k, v)] for every entry of [m] makes of [m]. *)
Definition as_values (m : gmap string string) : Values :=
  (fun v => [v]) <$> m.

(** The schedule in which the workers [0 .. n-1] each take one step. *)
Definition each_worker_once (n : nat) : list pool_event :=
  (fun i => Step (Worker i false)) <$> seq 0 n.


Definition env_down : Env :=
  mkEnv (url_JoinPath demo.env) (url_Parse demo.env)
    (URL_Query demo.env) (Values_Encode demo.env) (URL_String demo.env)
    (json_Marshal demo.env) (json_Unmarshal demo.env) (NewRequest_check demo.env)
    (fun _ _ => Fail (ErrExternal "connection refused")) (range_order demo.env).

(** The test environment with a server whose body breaks off. *)
Definition env_broken_body : Env :=
  mkEnv (url_JoinPath demo.env) (url_Parse demo.env)
    (URL_Query demo.env) (Values_Encode demo.env) (URL_String demo.env)
    (json_Marshal demo.env) (json_Unmarshal demo.env) (NewRequest_check demo.env)
    (fun _ _ => Ok (mkHttpResponse 200 ∅ [] (Some (ErrExternal "unexpected EOF"))))
    (range_order demo.env).


(** A context whose deadline has passed. *)
Definition expired : context := mkContext (Some (ErrExternal "context deadline exceeded")).

(** What holds of a running [Execute] on a batch that already held the
    slices [rs0] and [es0] when it started: the goroutines have their
    remaining steps in [sched], the slices have grown by one entry per
    returned goroutine, and the wait group counts the others. *)
Definition batch_acc (rs0 : list (option Response)) (es0 : list (option error))
    (rbs : list loc) (sched : list nat) (s : batch_state) : Prop :=
  let b := bs_batch s in
  let gs := bs_goroutines s in
  requests b = rbs ∧ length gs = length rbs ∧
  (forall i, count_occ Nat.eq_dec sched i = from_option steps_left 0%nat (gs !! i)) ∧
  (exists rs es, responses b = (rs0 ++ rs)%list ∧ errors b = (es0 ++ es)%list ∧
                 length rs = returned gs ∧ length es = returned gs) ∧
  (batch_wg b + returned gs = length rbs)%nat.

(** All the workers of a pool of [n], the first [j] returned, the others
    in their [select]. *)
Definition workers_after (j n : nat) : list worker :=
  (replicate j WReturned ++ replicate (n - j) WSelect)%list.

(** The workers that have not returned: those the wait group of the pool
    still counts. *)
Definition waiting (ws : list worker) : nat :=
  sum_list_with (fun wk => match wk with WReturned => 0 | _ => 1 end)%nat ws.

(** * Properties *)

(** ** The collaborators modelled in full *)

Example canonical_lower : textproto.CanonicalMIMEHeaderKey "content-type" = "Content-Type".
Proof. reflexivity. Qed.

Example canonical_mixed :
  textproto.CanonicalMIMEHeaderKey "x-CUSTOM-header" = "X-Custom-Header".
Proof. reflexivity. Qed.

Example canonical_invalid : textproto.CanonicalMIMEHeaderKey "bad key" = "bad key".
Proof. reflexivity. Qed.

Example basicAuth_test_credentials :
  http.basicAuth "testuser" "testpass" = "Basic dGVzdHVzZXI6dGVzdHBhc3M=".
Proof. reflexivity. Qed.

Example basicAuth_no_padding : http.basicAuth "a" "b" = "Basic YTpi".
Proof. reflexivity. Qed.

Example basicAuth_one_pad : http.basicAuth "ab" "cd" = "Basic YWI6Y2Q=".
Proof. reflexivity. Qed.

(** ** The engine leaves the rest of the world alone *)

Lemma same_engine_state_refl w : same_engine_state w w.
Proof. by repeat split. Qed.

Lemma Unmarshal_same E data v w uerr w1 :
  Unmarshal E data v w = (uerr, w1) -> same_engine_state w w1.
Proof.
  unfold Unmarshal. intros H.
  destruct v as [p|x]; [destruct (objs w !! p) as [old|]|]; simplify_eq;
    try apply same_engine_state_refl.
  destruct (json_Unmarshal E data old) as [new e]. simplify_eq.
  by repeat split.
Qed.

Lemma Unmarshal_readers E data v w uerr w1 :
  Unmarshal E data v w = (uerr, w1) -> readers w1 = readers w.
Proof.
  unfold Unmarshal. intros H.
  destruct v as [p|x]; [destruct (objs w !! p) as [old|]|]; simplify_eq; try done.
  destruct (json_Unmarshal E data old) as [new e]. by simplify_eq.
Qed.

Lemma prepareBody_same E r w b w1 :
  prepareBody E r w = (b, w1) -> same_engine_state w w1 ∧ objs w1 = objs w.
Proof.
  unfold prepareBody, io_ReadAll. intros H.
  destruct (body r) as [[x|s|rd|v]|]; simplify_eq;
    try (split; [apply same_engine_state_refl|done]).
  destruct (readers w !! rd) as [st|]; simplify_eq;
    (split; [by repeat split|done]).
Qed.

Lemma build_same E r w x w1 :
  build E r w = (x, w1) -> same_engine_state w w1 ∧ objs w1 = objs w.
Proof.
  unfold build. intros H.
  destruct (resolveURL E (the_client w) (endpoint r)) as [u|e];
    [|simplify_eq; split; [apply same_engine_state_refl|done]].
  destruct (url_Parse E u) as [pu|e];
    [|simplify_eq; split; [apply same_engine_state_refl|done]].
  destruct (body r) as [bv|] eqn:Hb.
  - destruct (prepareBody E r w) as [b w2] eqn:Hp.
    apply prepareBody_same in Hp.
    destruct b as [data|e]; [|by simplify_eq].
    destruct (NewRequestWithContext E (ctx r) (method r) _ (Some data)); by simplify_eq.
  - destruct (NewRequestWithContext E (ctx r) (method r) _ None); simplify_eq;
      (split; [apply same_engine_state_refl|done]).
Qed.

(** The header and the body of the request that [build] hands to the
    transport. *)
Lemma build_Ok E r w q w1 :
  build E r w = (Ok q, w1) ->
  Req_Header q = addAuth (the_client w) (addHeaders E (the_client w) r ∅) ∧
  match body r with
  | None => Req_Body q = None ∧ w1 = w
  | Some _ => exists data, prepareBody E r w = (Ok data, w1) ∧ Req_Body q = Some data
  end.
Proof.
  unfold build. intros H.
  destruct (resolveURL E (the_client w) (endpoint r)) as [u|e]; [|by simplify_eq].
  destruct (url_Parse E u) as [pu|e]; [|by simplify_eq].
  destruct (body r) as [bv|] eqn:Hb.
  - destruct (prepareBody E r w) as [b w2] eqn:Hp.
    pose proof (prepareBody_same _ _ _ _ _ Hp) as [(Hc & _) _].
    destruct b as [data|e]; [|by simplify_eq].
    unfold NewRequestWithContext in H.
    destruct (ctx r); [|by simplify_eq].
    destruct (NewRequest_check E (method r) _); simplify_eq/=.
    rewrite Hc. split; [done|]. by exists data.
  - unfold NewRequestWithContext in H.
    destruct (ctx r); [|by simplify_eq].
    destruct (NewRequest_check E (method r) _); by simplify_eq/=.
Qed.

(** ** The shape of an execution *)

Lemma settle_failed r e : failed e r = settle (response r) (Some e) r.
Proof. by destruct r. Qed.

Lemma execute_shape E l w r :
  heap w !! l = Some r -> executed r = false ->
  exists resp e w1,
    execute E l w = store l (settle resp e r) w1 ∧ execution_of E r w resp e w1.
Proof.
  intros Hl Hex. unfold execute. rewrite Hl, Hex.
  destruct (build E r w) as [[q|e0] w0] eqn:Hb;
    pose proof (build_same _ _ _ _ _ Hb) as [(Hc & Hh & Hp & Hr & Hk) _].
  2:{ exists (response r), (Some e0), w0. rewrite settle_failed.
      split; [done|]. unfold execution_of. rewrite Hb.
      repeat split; eauto. }
  unfold send.
  set (w1 := set_roundtrips (roundtrips w0 ++ [q]) w0).
  assert (Hframe : forall w2 resp1 e1, same_engine_state w1 w2 -> readers w2 = readers w0 ->
            (resp1 = response r ∧ is_Some e1) ∨ (is_Some resp1 ∧ e1 = err r) ∨
            (is_Some resp1 ∧ is_Some e1 ∧ is_Some (result r)) ->
            execution_of E r w resp1 e1 w2).
  { intros w2 resp1 e1 (Hc2 & Hh2 & Hp2 & Hr2 & Hk2) Hrd Hcase.
    unfold execution_of. rewrite Hb. cbn in *.
    repeat split; try congruence.
    exists (Ok q), w0. repeat split; [done|]. rewrite Hr2. by rewrite Hr. }
  assert (Hfail : forall e1 w2, same_engine_state w1 w2 -> readers w2 = readers w0 ->
            exists resp e wx,
              store l (failed e1 r) w2 = store l (settle resp e r) wx ∧
              execution_of E r w resp e wx).
  { intros e1 w2 Hs Hrd. exists (response r), (Some e1), w2. rewrite settle_failed.
    split; [done|]. apply Hframe; eauto. }
  destruct (RoundTrip E (roundtrips w0) q) as [resp|e1].
  2:{ destruct (ctx_Err (Req_ctx q)); (apply Hfail; [apply same_engine_state_refl|done]). }
  destruct (Resp_BodyErr resp); [apply Hfail; [apply same_engine_state_refl|done]|].
  unfold conclude.
  destruct (400 <=? Resp_StatusCode resp).
  - destruct (errorType r) as [dest|]; [|apply Hfail; [apply same_engine_state_refl|done]].
    destruct (Unmarshal E (Resp_Body resp) dest w1) as [uerr w2] eqn:Hu.
    pose proof (Unmarshal_readers _ _ _ _ _ _ Hu) as Hrd.
    apply Unmarshal_same in Hu.
    destruct uerr; by apply Hfail.
  - destruct (result r) as [dest|] eqn:Hres.
    + destruct (Unmarshal E (Resp_Body resp) dest w1) as [uerr w2] eqn:Hu.
      pose proof (Unmarshal_readers _ _ _ _ _ _ Hu) as Hrd.
      apply Unmarshal_same in Hu.
      destruct uerr as [e1|].
      * exists (Some (mkResponse (Resp_StatusCode resp) (Resp_Header resp) (Resp_Body resp))),
          (Some (ErrWrap "failed to unmarshal response" e1)), w2.
        split; [by destruct r|]. apply Hframe; eauto.
      * exists (Some (mkResponse (Resp_StatusCode resp) (Resp_Header resp) (Resp_Body resp))),
          (err r), w2.
        split; [by destruct r|]. apply Hframe; eauto.
    + exists (Some (mkResponse (Resp_StatusCode resp) (Resp_Header resp) (Resp_Body resp))),
        (err r), w1.
      split; [by destruct r|].
      apply Hframe; [apply same_engine_state_refl|done|eauto].
Qed.

(** After [execute] the object is marked executed. *)
Lemma execute_executed E l w r :
  heap w !! l = Some r ->
  exists r1, heap (execute E l w) !! l = Some r1 ∧ executed r1 = true.
Proof.
  intros Hl. destruct (executed r) eqn:Hex.
  - exists r. unfold execute. by rewrite Hl, Hex.
  - destruct (execute_shape E l w r Hl Hex) as (resp & e & w1 & -> & _).
    eexists. split; [apply lookup_insert_eq|]. by destruct r.
Qed.

(** [Result] in one equation. *)
Lemma Result_unfold E l w r :
  heap w !! l = Some r ->
  exists r1,
    let w1 := if executed r then w else execute E l w in
    heap w1 !! l = Some r1 ∧ executed r1 = true ∧
    request_Result E l w = ((response r1, err r1), pool_Put l w1).
Proof.
  intros Hl. unfold request_Result. rewrite Hl.
  destruct (executed r) eqn:Hex.
  - exists r. cbn. by rewrite Hl.
  - destruct (execute_executed E l w r Hl) as (r1 & H1 & H2).
    exists r1. cbn. by rewrite H1.
Qed.

(** ** Result is read from the object once it has executed *)

(** C3. A second call of [Result()] returns the pair the first call
    returned and performs no execution: the world after it is the world
    after the first call with the object put into the pool once more, so
    no request has gone to the transport and no object, caller value or
    reader has changed. *)
Theorem Result_twice_returns_cached (E : Env) (l : loc) (w : world) :
  let '(first, w1) := request_Result E l w in
  let '(second, w2) := request_Result E l w1 in
  second = first ∧
  w2 = match heap w !! l with Some _ => pool_Put l w1 | None => w1 end.
Proof.
  destruct (heap w !! l) as [r|] eqn:Hl.
  - destruct (Result_unfold E l w r Hl) as (r1 & H1 & Hex & ->).
    unfold request_Result at 1. cbn. rewrite H1, Hex. cbn. by rewrite H1.
  - unfold request_Result. rewrite Hl. by rewrite Hl.
Qed.

(** On the test server: the first [Result()] makes the one round trip, the
    second makes none and returns the same response. *)
Example Result_twice_demo :
  let '(r, w) := Get "/posts/1" demo.w0 in
  let '(first, w1) := request_Result demo.env r w in
  let '(second, w2) := request_Result demo.env r w1 in
  length (roundtrips w) = 0%nat ∧ length (roundtrips w1) = 1%nat ∧
  length (roundtrips w2) = 1%nat ∧ second = first ∧
  (StatusCode <$> first.1) = Some 200 ∧ first.2 = None.
Proof. vm_compute. by repeat split. Qed.

(** ** Callbacks *)

Lemma execute_handler_calls E l w : handler_calls (execute E l w) = handler_calls w.
Proof.
  destruct (heap w !! l) as [r|] eqn:Hl; [|unfold execute; by rewrite Hl].
  destruct (executed r) eqn:Hex; [unfold execute; by rewrite Hl, Hex|].
  destruct (execute_shape E l w r Hl Hex) as (resp & e & w1 & -> & Hx).
  by destruct Hx as (_ & _ & _ & Hk & _).
Qed.

Lemma Result_handler_calls E l w :
  handler_calls (request_Result E l w).2 = handler_calls w.
Proof.
  destruct (heap w !! l) as [r|] eqn:Hl; [|unfold request_Result; by rewrite Hl].
  destruct (Result_unfold E l w r Hl) as (r1 & _ & _ & ->). cbn.
  destruct (executed r); [done|apply execute_handler_calls].
Qed.

Lemma Into_handler_calls E v l w :
  handler_calls (Into E v l w).2 = handler_calls w.
Proof.
  unfold Into. pose proof (Result_handler_calls E l w) as HR.
  destruct (request_Result E l w) as [[resp e] w1]. cbn in HR.
  destruct e as [e|].
  - destruct (is_RequestError e), (RequestError_Response e) as [data|],
      (heap w1 !! l ≫= errorType) as [dest|]; try done.
    destruct (Unmarshal E data dest w1) as [uerr w2] eqn:Hu.
    apply Unmarshal_same in Hu as (_ & _ & _ & _ & Hk).
    destruct uerr; cbn; congruence.
  - destruct resp as [rsp|]; [|done]. destruct v as [dest|]; [|done].
    destruct (Unmarshal E (Body rsp) dest w1) as [uerr w2] eqn:Hu.
    apply Unmarshal_same in Hu as (_ & _ & _ & _ & Hk). cbn. congruence.
Qed.

Lemma OnSuccess_calls fn l w :
  handler_calls (OnSuccess fn l w) = (handler_calls w ++ success_calls fn (heap w !! l))%list.
Proof.
  unfold OnSuccess, update_request, success_calls.
  destruct (heap w !! l) as [r|] eqn:Hl; cbn.
  - rewrite lookup_insert_eq. destruct r as [? ? ? ? ? ? ? ? ? ? [] [] []]; cbn;
      by rewrite ?app_nil_r.
  - rewrite Hl. by rewrite app_nil_r.
Qed.

Lemma OnError_calls fn l w :
  handler_calls (OnError fn l w) = (handler_calls w ++ error_calls fn (heap w !! l))%list.
Proof.
  unfold OnError, update_request, error_calls.
  destruct (heap w !! l) as [r|] eqn:Hl; cbn.
  - rewrite lookup_insert_eq. destruct r as [? ? ? ? ? ? ? ? ? ? [] ? [e|]]; cbn;
      try destruct (is_RequestError e); cbn; by rewrite ?app_nil_r.
  - rewrite Hl. by rewrite app_nil_r.
Qed.

(** C9. The execution path ([execute], [Result], [Into]) calls no handler,
    so a callback registered before the execution is never called: after
    [OnSuccess] or [OnError] on an object not yet executed and a following
    [Result] or [Into], the calls made are those made before. A callback
    is called by its registration alone, once, and exactly when the object
    has already executed with a matching outcome. *)
Theorem callbacks_only_at_registration (E : Env) (fn : handler) (v : option boxed)
    (l : loc) (w : world) :
  handler_calls (execute E l w) = handler_calls w ∧
  handler_calls (request_Result E l w).2 = handler_calls w ∧
  handler_calls (Into E v l w).2 = handler_calls w ∧
  handler_calls (OnSuccess fn l w) = (handler_calls w ++ success_calls fn (heap w !! l))%list ∧
  handler_calls (OnError fn l w) = (handler_calls w ++ error_calls fn (heap w !! l))%list ∧
  (forall r, heap w !! l = Some r -> executed r = false ->
     handler_calls (request_Result E l (OnSuccess fn l w)).2 = handler_calls w ∧
     handler_calls (request_Result E l (OnError fn l w)).2 = handler_calls w ∧
     handler_calls (Into E v l (OnSuccess fn l w)).2 = handler_calls w ∧
     handler_calls (Into E v l (OnError fn l w)).2 = handler_calls w).
Proof.
  split; [apply execute_handler_calls|].
  split; [apply Result_handler_calls|].
  split; [apply Into_handler_calls|].
  split; [apply OnSuccess_calls|].
  split; [apply OnError_calls|].
  intros r Hl Hex.
  rewrite !Result_handler_calls, !Into_handler_calls, OnSuccess_calls, OnError_calls.
  rewrite Hl. cbn. rewrite Hex. by rewrite app_nil_r.
Qed.

Lemma callbacks_only_at_registration_witness :
  let l := 0%nat in
  let w := (Get "/posts/1" demo.w0).2 in
  handler_calls (request_Result demo.env l (OnSuccess 1%nat l w)).2 = [] ∧
  (exists resp,
     handler_calls (OnSuccess 1%nat l (request_Result demo.env l w).2)
       = [CallSuccess 1%nat resp]) ∧
  handler_calls (OnError 2%nat l (request_Result demo.env l w).2) = [].
Proof.
  intros l w.
  destruct (callbacks_only_at_registration demo.env 1%nat None l w)
    as (_ & _ & _ & _ & _ & Hbefore).
  destruct (callbacks_only_at_registration demo.env 1%nat None l
              (request_Result demo.env l w).2) as (_ & _ & _ & Hs & _).
  destruct (callbacks_only_at_registration demo.env 2%nat None l
              (request_Result demo.env l w).2) as (_ & _ & _ & _ & He & _).
  split.
  { edestruct Hbefore as (H & _); [vm_compute; reflexivity|reflexivity|exact H]. }
  split.
  - rewrite Hs. vm_compute. eexists. reflexivity.
  - rewrite He. vm_compute. reflexivity.
Defined.

(** ** The request handed to the transport *)

(** When an execution adds a request to the round trips, it is the one
    [build] has returned. *)
Lemma execute_sent E l w r q :
  heap w !! l = Some r -> executed r = false ->
  roundtrips (execute E l w) = (roundtrips w ++ [q])%list ->
  exists w0, build E r w = (Ok q, w0).
Proof.
  intros Hl Hex Hrt.
  destruct (execute_shape E l w r Hl Hex) as (resp & e & w1 & Heq & Hx).
  destruct Hx as (_ & _ & _ & _ & (x & w0 & Hb & _ & Hr) & _).
  rewrite Heq in Hrt. cbn in Hrt. rewrite Hr in Hrt.
  destruct x as [q'|e'].
  - apply app_inv_head in Hrt. simplify_eq. by exists w0.
  - apply (f_equal length) in Hrt. rewrite length_app in Hrt. cbn in Hrt. lia.
Qed.

Lemma Header_Get_Set key value h :
  http.Header_Get key (http.Header_Set key value h) = value.
Proof. unfold http.Header_Get, http.Header_Set. by rewrite lookup_insert_eq. Qed.

(** [addAuth], by cases on what is configured. *)
Lemma addAuth_Authorization c h :
  http.Header_Get "Authorization" (addAuth c h) =
    if negb (basicAuth_Username c =? "")%string && negb (basicAuth_Password c =? "")%string
    then http.basicAuth (basicAuth_Username c) (basicAuth_Password c)
    else if negb (bearerToken c =? "")%string
         then "Bearer " ++ bearerToken c
         else http.Header_Get "Authorization" h.
Proof.
  unfold addAuth.
  destruct (negb (basicAuth_Username c =? "")%string && negb (basicAuth_Password c =? "")%string).
  - apply Header_Get_Set.
  - destruct (negb (bearerToken c =? "")%string); [apply Header_Get_Set|done].
Qed.

(** C2, as the code has it. With a bearer token and both basic-auth
    credentials set, the Authorization header of the outgoing request is
    the basic form: the basic-auth statement runs second and overwrites the
    bearer header. The bearer form is sent when a token is set and the
    username or the password is empty. *)
Theorem basic_auth_overwrites_bearer (E : Env) (l : loc) (w : world) (r : request)
    (q : http_Request) :
  heap w !! l = Some r -> executed r = false ->
  roundtrips (execute E l w) = (roundtrips w ++ [q])%list ->
  bearerToken (the_client w) <> "" ->
  let c := the_client w in
  (basicAuth_Username c <> "" -> basicAuth_Password c <> "" ->
   http.Header_Get "Authorization" (Req_Header q) =
     http.basicAuth (basicAuth_Username c) (basicAuth_Password c)) ∧
  (basicAuth_Username c = "" ∨ basicAuth_Password c = "" ->
   http.Header_Get "Authorization" (Req_Header q) = "Bearer " ++ bearerToken c).
Proof.
  intros Hl Hex Hrt Htok c.
  destruct (execute_sent E l w r q Hl Hex Hrt) as (w0 & Hb).
  apply build_Ok in Hb as [-> _].
  rewrite addAuth_Authorization. fold c.
  apply String.eqb_neq in Htok. fold c in Htok. rewrite Htok. cbn.
  split.
  - intros Hu Hp. apply String.eqb_neq in Hu, Hp. by rewrite Hu, Hp.
  - intros [Hu|Hp]; apply String.eqb_eq in Hu || apply String.eqb_eq in Hp.
    + by rewrite Hu.
    + rewrite Hp. by rewrite andb_false_r.
Qed.

Lemma basic_auth_overwrites_bearer_witness :
  let l := 0%nat in
  let w := (Get "/posts/1" both_auth).2 in
  exists r q,
    heap w !! l = Some r ∧ executed r = false ∧
    roundtrips (execute demo.env l w) = (roundtrips w ++ [q])%list ∧
    http.Header_Get "Authorization" (Req_Header q) = http.basicAuth "testuser" "testpass".
Proof.
  intros l w. eexists _, _.
  split; [vm_compute; reflexivity|].
  split; [reflexivity|].
  split; [vm_compute; reflexivity|].
  refine (proj1 (basic_auth_overwrites_bearer demo.env l w _ _ _ _ _ _) _ _);
    try (vm_compute; reflexivity); vm_compute; discriminate.
Defined.

(** C2, as stated, fails: on a client with a bearer token and basic-auth
    credentials the request sent carries the basic form, not the bearer
    form. *)
Lemma bearer_does_not_take_precedence :
  let '(l, w) := Get "/posts/1" both_auth in
  bearerToken (the_client w) = "valid-token" ∧
  basicAuth_Username (the_client w) = "testuser" ∧
  basicAuth_Password (the_client w) = "testpass" ∧
  exists q,
    roundtrips (request_Result demo.env l w).2 = [q] ∧
    http.Header_Get "Authorization" (Req_Header q) = "Basic dGVzdHVzZXI6dGVzdHBhc3M=" ∧
    http.Header_Get "Authorization" (Req_Header q) <> "Bearer valid-token".
Proof.
  vm_compute. repeat split. eexists. repeat split. discriminate.
Qed.

(** ** The body of the outgoing request *)

(** C7, as the code has it. [SetBody] stores the value as passed, reading
    and serializing nothing. When the object is later executed in a world
    [w2] and a request goes out, its body is: absent for the nil interface;
    the bytes for a byte slice; the bytes of the string for a string; what
    was left in the reader for a reader, which is then drained; and the
    JSON serialization of the value as it is in [w2], at execution time,
    for anything else. *)
Theorem body_sent_by_kind (E : Env) (b : option body_value) (l : loc) (w : world)
    (r : request) :
  heap w !! l = Some r ->
  SetBody b l w = store l (set_body b r) w ∧
  forall w2 r2 q,
    heap w2 !! l = Some r2 -> body r2 = b -> executed r2 = false ->
    roundtrips (execute E l w2) = (roundtrips w2 ++ [q])%list ->
    match b with
    | None => Req_Body q = None
    | Some (BodyBytes data) => Req_Body q = Some data
    | Some (BodyString s) => Req_Body q = Some (bytes_of_string s)
    | Some (BodyReader rd) =>
        Req_Body q = Some (from_option rd_rest [] (readers w2 !! rd)) ∧
        forall st, readers w2 !! rd = Some st ->
          rd_err st = None ∧
          readers (execute E l w2) !! rd = Some (mkReader [] None)
    | Some (BodyOther v) =>
        exists data, json_Marshal E (load v w2) = Ok data ∧ Req_Body q = Some data
    end.
Proof.
  intros Hl. split.
  { unfold SetBody, update_request. by rewrite Hl. }
  intros w2 r2 q Hl2 Hb Hex Hrt.
  destruct (execute_shape E l w2 r2 Hl2 Hex) as (resp & e & w1 & Heq & Hx).
  destruct Hx as (_ & _ & _ & _ & (x & w0 & Hbuild & Hrd & Hr) & _).
  destruct (execute_sent E l w2 r2 q Hl2 Hex Hrt) as (w0' & Hbuild').
  rewrite Hbuild' in Hbuild. simplify_eq.
  apply build_Ok in Hbuild' as [_ Hbody].
  destruct (body r2) as [[data|s|rd|v]|] eqn:Hbr; [| | | |by destruct Hbody].
  - destruct Hbody as (data' & Hp & ->). unfold prepareBody in Hp.
    rewrite Hbr in Hp. by simplify_eq.
  - destruct Hbody as (data' & Hp & ->). unfold prepareBody in Hp.
    rewrite Hbr in Hp. by simplify_eq.
  - destruct Hbody as (data' & Hp & ->). unfold prepareBody, io_ReadAll in Hp.
    rewrite Hbr in Hp.
    destruct (readers w2 !! rd) as [st|] eqn:Hst; cbn.
    + destruct (rd_err st) eqn:Herr; simplify_eq. split; [done|].
      intros st' ?. simplify_eq. split; [done|].
      rewrite Heq. cbn. rewrite Hrd. cbn. rewrite lookup_insert_eq. congruence.
    + simplify_eq. split; [done|]. by intros st' ?.
  - destruct Hbody as (data' & Hp & ->). unfold prepareBody in Hp.
    rewrite Hbr in Hp. exists data'. split; [|done].
    by destruct (json_Marshal E (load v w2)); simplify_eq.
Qed.

Lemma body_sent_by_kind_witness :
  let l := 0%nat in
  let w := (Post "/posts" demo.w0).2 in
  let b := Some (BodyOther (Val demo.post1)) in
  let w2 := SetBody b l w in
  exists r q,
    heap w !! l = Some r ∧
    w2 = store l (set_body b r) w ∧
    roundtrips (execute demo.env l w2) = (roundtrips w2 ++ [q])%list ∧
    Req_Body q = Some (bytes_of_string (demo.encode demo.post1)).
Proof.
  intros l w b w2. eexists _, _.
  split; [vm_compute; reflexivity|].
  split; [refine (proj1 (body_sent_by_kind demo.env b l w _ _)); vm_compute; reflexivity|].
  split; [vm_compute; reflexivity|].
  edestruct (proj2 (body_sent_by_kind demo.env b l w _ ltac:(vm_compute; reflexivity))
               w2 _ _ ltac:(vm_compute; reflexivity) ltac:(reflexivity) ltac:(reflexivity)
               ltac:(vm_compute; reflexivity))
    as (data & Hm & Hq).
  rewrite Hq. vm_compute in Hm. by injection Hm as <-.
Defined.

(** C7, as stated, fails at the nil interface: [SetBody(nil)] sends no body,
    where the JSON serialization of nil is the four bytes of null. *)
Lemma nil_body_is_not_serialized :
  let '(l, w) := Post "/posts" demo.w0 in
  let w1 := SetBody None l w in
  (Req_Body <$> roundtrips (request_Result demo.env l w1).2) = [None] ∧
  json_Marshal demo.env VNil = Ok (bytes_of_string "null").
Proof. vm_compute. by split. Qed.

(** A value behind a pointer is serialized as it is when the request is
    executed, not as it was when [SetBody] was called. *)
Example body_serialized_at_execution :
  let '(l, w) := Post "/posts" (set_objs {[ 7%nat := VInt 1 ]} demo.w0) in
  let w1 := SetBody (Some (BodyOther (Ptr 7%nat))) l w in
  let w2 := set_objs (<[ 7%nat := VInt 2 ]> (objs w1)) w1 in
  (Req_Body <$> roundtrips (request_Result demo.env l w2).2) = [Some (bytes_of_string "2")].
Proof. vm_compute. reflexivity. Qed.

(** ** Failures by status *)



(** On the test server, with a destination set: the 404 carries the decoded
    document; [Into] returns it wrapped with the document once more. *)
Example failure_by_status_demo :
  let l := 0%nat in
  let w := SetError (Some (Ptr 9%nat)) l
             (Get "/posts/404" (set_objs {[ 9%nat := VNil ]} demo.w0)).2 in
  (request_Result demo.env l w).1.2 ≫= RequestError_Err
    = Some (ErrStatusDetail 404 demo.notFound) ∧
  objs (request_Result demo.env l w).2 !! 9%nat = Some demo.notFound.
Proof. vm_compute. by split. Qed.


(** ** Headers *)

(** What a sequence of [Set] calls leaves under a header name. *)
Lemma set_list_lookup (kvs : list (string * string)) (h : http.Header) (n : string) :
  foldl (fun h kv => http.Header_Set kv.1 kv.2 h) h kvs !! n =
    match last_for n kvs with
    | Some v => Some [v]
    | None => h !! n
    end.
Proof.
  unfold last_for. induction kvs as [|kv kvs IH] using rev_ind; [done|].
  rewrite !foldl_snoc. unfold http.Header_Set at 1.
  destruct (decide (textproto.CanonicalMIMEHeaderKey kv.1 = n)) as [<-|Hne].
  - by rewrite lookup_insert_eq.
  - by rewrite lookup_insert_ne.
Qed.

Lemma last_for_Some n kvs v :
  last_for n kvs = Some v ->
  exists k, (k, v) ∈ kvs ∧ textproto.CanonicalMIMEHeaderKey k = n.
Proof.
  unfold last_for. induction kvs as [|[k x] kvs IH] using rev_ind; [done|].
  rewrite foldl_snoc. cbn. destruct (decide _) as [Heq|Hne].
  - intros [= <-]. exists k. split; [|done]. apply elem_of_app. right. by left.
  - intros H. destruct (IH H) as (k' & Hin & Hk'). exists k'. split; [|done].
    apply elem_of_app. by left.
Qed.

Lemma last_for_None n kvs :
  last_for n kvs = None ->
  forall k v, (k, v) ∈ kvs -> textproto.CanonicalMIMEHeaderKey k <> n.
Proof.
  unfold last_for. induction kvs as [|[k x] kvs IH] using rev_ind.
  - intros _ k v Hin. by apply elem_of_nil in Hin.
  - rewrite foldl_snoc. cbn. destruct (decide _) as [Heq|Hne]; [done|].
    intros H k' v' Hin. apply elem_of_app in Hin as [Hin|Hin]; [by eapply IH|].
    apply list_elem_of_singleton in Hin. by simplify_eq.
Qed.

(** The entries of [m] in any order of visit. *)
Lemma range_elem_of E (m : gmap string string) k v :
  range_ok E -> (k, v) ∈ range_order E m <-> m !! k = Some v.
Proof. intros HE. rewrite (HE m). apply elem_of_map_to_list. Qed.

Lemma names_lookup n (m : gmap string string) k v :
  names n m !! k = Some v <-> m !! k = Some v ∧ textproto.CanonicalMIMEHeaderKey k = n.
Proof. unfold names. by rewrite map_lookup_filter_Some. Qed.

(** One layer written over a header, under the name [n]: untouched when no
    key of the layer stands for [n]; the value of some key standing for
    [n] otherwise, and of the only such key when there is one. *)
Lemma set_all_lookup E (m : gmap string string) (h : http.Header) (n : string) :
  range_ok E ->
  (names n m = ∅ -> set_all E m h !! n = h !! n) ∧
  (names n m <> ∅ -> exists k v, names n m !! k = Some v ∧ set_all E m h !! n = Some [v]) ∧
  (forall k v, names n m = {[ k := v ]} -> set_all E m h !! n = Some [v]).
Proof.
  intros HE. unfold set_all. rewrite set_list_lookup.
  destruct (last_for n (range_order E m)) as [v|] eqn:Hlast.
  - apply last_for_Some in Hlast as (k & Hin & Hk).
    apply (range_elem_of E) in Hin; [|done].
    assert (Hn : names n m !! k = Some v) by by apply names_lookup.
    split; [intros Hemp; by rewrite Hemp in Hn|].
    split; [intros _; by exists k, v|].
    intros k' v' Heq. rewrite Heq in Hn.
    apply lookup_singleton_Some in Hn as [_ ->]. done.
  - pose proof (last_for_None _ _ Hlast) as Hnone.
    assert (Hemp : names n m = ∅).
    { apply map_empty. intros k. apply eq_None_not_Some. intros [v Hv].
      apply names_lookup in Hv as [Hv Hk].
      apply (range_elem_of E) in Hv; [|done]. by eapply Hnone. }
    split; [done|]. split; [done|].
    intros k v Heq. rewrite Heq in Hemp.
    by apply map_non_empty_singleton in Hemp.
Qed.

(** [for k, v := range src { dst[k] = v }] is the union that prefers
    [src], whatever the order of the visit. *)
Lemma assign_all_union E (src dst : gmap string string) :
  range_ok E -> assign_all E src dst = src ∪ dst.
Proof.
  intros HE. unfold assign_all.
  assert (Hfold : forall kvs : list (string * string),
            foldl (fun m kv => <[kv.1 := kv.2]> m) dst kvs
            = list_to_map (reverse kvs) ∪ dst).
  { induction kvs as [|kv kvs IH] using rev_ind;
      [symmetry; apply (left_id_L ∅ (∪))|].
    rewrite foldl_snoc, reverse_snoc, IH. cbn. by rewrite insert_union_l. }
  rewrite Hfold. f_equal.
  rewrite <- (list_to_map_to_list src) at 2.
  symmetry. apply list_to_map_proper; [apply NoDup_fst_map_to_list|].
  by rewrite reverse_Permutation, (HE src).
Qed.

(** The later write to a key string wins. *)
Lemma written_snoc cs c :
  written (cs ++ [c]) =
    match c with
    | CallSetHeader key value => <[key := value]> (written cs)
    | CallSetHeaders hs => hs ∪ written cs
    end.
Proof. unfold written. by rewrite foldl_snoc. Qed.

(** The header calls write the [headers] field and nothing else. *)
Lemma header_calls_written E l w0 r0 cs :
  range_ok E -> heap w0 !! l = Some r0 -> headers r0 = None ->
  let w := foldl (do_header_call E l) w0 cs in
  exists hs,
    w = store l (set_headers hs r0) w0 ∧ or_make hs = written cs.
Proof.
  intros HE Hl Hh. induction cs as [|c cs IH] using rev_ind; cbn.
  - exists None. split; [|done]. destruct w0, r0; cbn in *. subst.
    unfold store. cbn. f_equal. by rewrite insert_id.
  - rewrite foldl_snoc. cbn in IH. destruct IH as (hs & -> & Hw).
    rewrite written_snoc.
    destruct c as [key value|hs1]; cbn [do_header_call];
      unfold SetHeader, SetHeaders, update_request; cbn [heap store set_heap];
      rewrite lookup_insert_eq; cbn [headers set_headers]; rewrite Hw.
    + exists (Some (<[key := value]> (written cs))). split; [|done].
      unfold store. cbn. by rewrite insert_insert_eq.
    + exists (Some (assign_all E hs1 (written cs))). split.
      * unfold store. cbn. by rewrite insert_insert_eq.
      * cbn. by apply assign_all_union.
Qed.

Lemma addAuth_other c h n :
  n <> "Authorization" -> addAuth c h !! n = h !! n.
Proof.
  intros Hn. unfold addAuth, http.Header_Set.
  change (textproto.CanonicalMIMEHeaderKey "Authorization") with "Authorization".
  repeat case_match; by rewrite ?lookup_insert_ne.
Qed.

(** C5, as the code has it. After any sequence of [SetHeader] and
    [SetHeaders] calls on a fresh request, the per-request mapping is
    [written cs] (the later write to a key string wins), and the request
    handed to the transport carries, under every header name [n] other
    than Authorization: the value of the per-request key standing for [n]
    when there is one; else that of the global key standing for [n]; else
    the built-in default. A key stands for its canonical form. When several
    key strings of one layer stand for [n], the value sent is that of one
    of them, by the order in which [range] visits the map. *)
Theorem headers_by_layer (E : Env) (l : loc) (w0 : world) (r0 : request)
    (cs : list header_call) (q : http_Request) :
  range_ok E ->
  heap w0 !! l = Some r0 -> headers r0 = None -> executed r0 = false ->
  let w := foldl (do_header_call E l) w0 cs in
  roundtrips (execute E l w) = (roundtrips w ++ [q])%list ->
  let G := globalHeaders (the_client w0) in
  let R := written cs in
  forall n, n <> "Authorization" ->
    (forall k v, names n R = {[ k := v ]} -> Req_Header q !! n = Some [v]) ∧
    (names n R <> ∅ -> exists k v, names n R !! k = Some v ∧ Req_Header q !! n = Some [v]) ∧
    (names n R = ∅ ->
       (forall k v, names n G = {[ k := v ]} -> Req_Header q !! n = Some [v]) ∧
       (names n G <> ∅ ->
          exists k v, names n G !! k = Some v ∧ Req_Header q !! n = Some [v]) ∧
       (names n G = ∅ -> Req_Header q !! n = default_headers !! n)).
Proof.
  intros HE Hl Hh Hex w Hrt G R n Hn.
  destruct (header_calls_written E l w0 r0 cs HE Hl Hh) as (hs & Hw & Hhs).
  fold w in Hw.
  assert (Hlw : heap w !! l = Some (set_headers hs r0)).
  { rewrite Hw. cbn. apply lookup_insert_eq. }
  assert (Hex' : executed (set_headers hs r0) = false) by done.
  destruct (execute_sent E l w _ q Hlw Hex' Hrt) as (w1 & Hb).
  apply build_Ok in Hb as [-> _].
  rewrite addAuth_other by done.
  assert (Hc : the_client w = the_client w0) by by rewrite Hw.
  rewrite Hc. unfold addHeaders. cbn [headers set_headers]. rewrite Hhs.
  fold G R default_headers.
  destruct (set_all_lookup E R (set_all E G default_headers) n HE) as (HR0 & HR1 & HR2).
  destruct (set_all_lookup E G default_headers n HE) as (HG0 & HG1 & HG2).
  split; [exact HR2|]. split; [exact HR1|].
  intros Hemp. rewrite (HR0 Hemp).
  split; [exact HG2|]. split; [exact HG1|]. exact HG0.
Qed.

Lemma demo_range_ok : range_ok demo.env.
Proof. intros m. reflexivity. Qed.

Lemma demo_rev_range_ok : range_ok demo.env_rev.
Proof. intros m. cbn. apply reverse_Permutation. Qed.

Lemma headers_by_layer_witness :
  let l := 0%nat in
  let w0 := (Get "/posts/1" (New demo.server {[ "X-Global-Header" := "global-value" ]})).2 in
  let cs := [CallSetHeader "X-Custom-Header" "custom-value";
             CallSetHeaders {[ "X-Another-Header" := "another-value" ]}] in
  let w := foldl (do_header_call demo.env l) w0 cs in
  exists q,
    roundtrips (execute demo.env l w) = (roundtrips w ++ [q])%list ∧
    Req_Header q !! "X-Custom-Header" = Some ["custom-value"].
Proof.
  intros l w0 cs w. eexists.
  split; [vm_compute; reflexivity|].
  refine (proj1 (headers_by_layer demo.env l w0 _ cs _ demo_range_ok _ _ _ _
                   "X-Custom-Header" _) "X-Custom-Header" "custom-value" _);
    try (vm_compute; reflexivity).
  vm_compute; discriminate.
Defined.

(** C5, as stated, fails: two writes on one request whose keys differ in
    case only collide in the outgoing header, and when [range] visits the
    later-written key first the earlier write is the one sent. The later
    write is the value of X-A in the per-request mapping, and the value
    the layers give when overlaid in program order. *)
Lemma later_write_can_lose :
  let cs := [CallSetHeader "x-a" "1"; CallSetHeader "X-A" "2"] in
  let '(l, w) := Get "/posts/1" demo.w0 in
  let w1 := foldl (do_header_call demo.env_rev l) w cs in
  ((fun q => Req_Header q !! "X-A") <$> roundtrips (request_Result demo.env_rev l w1).2)
    = [Some ["1"]] ∧
  match heap w1 !! l with
  | Some r => or_make (headers r) !! "X-A" = Some "2"
  | None => False
  end ∧
  spec_headers (map_to_list (globalHeaders (the_client w))) cs !! "X-A" = Some ["2"].
Proof. vm_compute. by repeat split. Qed.

(** ** Every object the client hands out is well formed *)

Lemma req_ok_fresh m ep c : req_ok (fresh_request m ep c).
Proof. by repeat split. Qed.

Lemma world_ok_update l f w :
  world_ok w -> (forall r, req_ok r -> req_ok (f r)) -> world_ok (update_request l f w).
Proof.
  intros Hw Hf. unfold update_request.
  destruct (heap w !! l) as [r|] eqn:Hl; [|done].
  intros l' r'. cbn. rewrite lookup_insert.
  case_decide; [|apply Hw]. intros [= <-]. eauto.
Qed.

(** [Result] returns a one-sided pair and keeps the world well formed and
    the set of objects. *)
Lemma Result_ok E l w resp e w1 :
  world_ok w -> is_Some (heap w !! l) ->
  request_Result E l w = ((resp, e), w1) ->
  exactly_one resp e ∧ world_ok w1 ∧
  forall l', is_Some (heap w1 !! l') <-> is_Some (heap w !! l').
Proof.
  intros Hw [r Hl] HR.
  destruct (Hw l r Hl) as [Hres Hpair].
  destruct (Result_unfold E l w r Hl) as (r1 & H1 & Hex1 & HR1).
  rewrite HR1 in HR. simplify_eq.
  destruct (executed r) eqn:Hex.
  - simplify_eq. cbn. split; [done|]. split; [exact Hw|done].
  - destruct Hpair as [Hr0 He0].
    destruct (execute_shape E l w r Hl Hex) as (resp & e & wx & Heq & Hx).
    destruct Hx as (_ & Hh & _ & _ & _ & Hcase).
    rewrite Heq in H1 |- *. cbn in H1. rewrite lookup_insert_eq in H1.
    simplify_eq.
    assert (Hone : exactly_one resp e).
    { destruct Hcase as [[-> He]|[[Hr ->]|(_ & _ & Hsome)]].
      - right. by rewrite Hr0.
      - left. by rewrite He0.
      - rewrite Hres in Hsome. by destruct Hsome. }
    assert (Hreq : req_ok (settle resp e r)).
    { split; [by destruct r|]. by destruct r. }
    split; [by destruct r|]. split.
    + intros l' r'. cbn. rewrite lookup_insert, Hh.
      case_decide; [by intros [= <-]|apply Hw].
    + intros l'. cbn. rewrite lookup_insert, Hh.
      case_decide; [|done]. subst. rewrite Hl. split; eauto.
Qed.

Lemma Unmarshal_ok E data v w uerr w1 :
  Unmarshal E data v w = (uerr, w1) -> world_ok w -> world_ok w1.
Proof.
  intros Hu Hw. apply Unmarshal_same in Hu as (_ & Hh & _).
  intros l r. rewrite Hh. apply Hw.
Qed.

Lemma do_call_ok E c w : world_ok w -> world_ok (do_call E c w).
Proof.
  intros Hw. destruct c; cbn; try done;
    try (apply world_ok_update; [done|]; intros r [? ?]; by destruct r).
  - unfold newRequest, pool_Get.
    destruct (pool w) as [|l0 rest]; cbn; intros l' r'; cbn;
      rewrite lookup_insert; (case_decide; [intros [= <-]; apply req_ok_fresh|apply Hw]).
  - unfold OnSuccess.
    assert (Hw1 : world_ok (update_request l (set_successHandler (Some fn)) w)).
    { apply world_ok_update; [done|]. intros r [? ?]; by destruct r. }
    repeat case_match; done.
  - unfold OnError.
    assert (Hw1 : world_ok (update_request l (set_errorHandler (Some fn)) w)).
    { apply world_ok_update; [done|]. intros r [? ?]; by destruct r. }
    repeat case_match; done.
  - destruct (heap w !! l) as [r|] eqn:Hl.
    + destruct (request_Result E l w) as [[resp e] w1] eqn:HR.
      by apply Result_ok in HR as (_ & ? & _).
    + unfold request_Result. by rewrite Hl.
  - unfold Into.
    assert (HR : world_ok (request_Result E l w).2).
    { destruct (heap w !! l) as [r|] eqn:Hl.
      + destruct (request_Result E l w) as [[resp e] w1] eqn:HR.
        by apply Result_ok in HR as (_ & ? & _).
      + unfold request_Result. by rewrite Hl. }
    destruct (request_Result E l w) as [[resp e] w1]. cbn in HR.
    repeat case_match; simplify_eq; cbn; eauto using Unmarshal_ok.
Qed.

Lemma reachable_ok E w : reachable E w -> world_ok w.
Proof.
  intros (base & hs & cs & ->). unfold do_calls.
  induction cs as [|c cs IH] using rev_ind.
  - intros l r. cbn. by rewrite lookup_empty.
  - rewrite foldl_snoc. by apply do_call_ok.
Qed.

(** ** The batch executor *)

Lemma batch_of_spec rbs :
  batch_of rbs = mkBatch rbs [] [] 0.
Proof.
  unfold batch_of. induction rbs as [|rb rbs IH] using rev_ind; [done|].
  rewrite foldl_snoc, IH. done.
Qed.

Lemma returned_le gs : (returned gs <= length gs)%nat.
Proof.
  unfold returned. induction gs as [|[] gs IH]; cbn; lia.
Qed.

Lemma returned_insert gs i g g1 :
  gs !! i = Some g ->
  (returned (<[i := g1]> gs) + returned [g] = returned gs + returned [g1])%nat.
Proof.
  intros Hi. unfold returned.
  rewrite <- (take_drop_middle gs i g Hi) at 2.
  rewrite insert_take_drop by (by eapply lookup_lt_Some).
  rewrite !sum_list_with_app. cbn. lia.
Qed.

Lemma returned_all gs :
  (forall i, from_option steps_left 0%nat (gs !! i) = 0%nat) -> returned gs = length gs.
Proof.
  unfold returned. induction gs as [|g gs IH]; [done|]. intros H.
  pose proof (H 0%nat) as H0. cbn in H0. destruct g; try done.
  cbn. f_equal. apply IH. intros i. apply (H (S i)).
Qed.

(** A goroutine with a step left in the schedule can take it, and the
    invariant carries over to the rest of the schedule. *)
Lemma batch_step_inv E n i rest s :
  batch_inv n (i :: rest) s ->
  exists s1, batch_step E i s = Some s1 ∧ batch_inv n rest s1.
Proof.
  intros (Hw & Hlen & Hcount & Hok & Hresp & Hwg & Hpairs).
  pose proof (Hcount i) as Hi. cbn in Hi.
  destruct (Nat.eq_dec i i) as [_|]; [|done].
  destruct (bs_goroutines s !! i) as [g|] eqn:Hg; [|done]. cbn in Hi.
  assert (Hcount1 : forall g1, steps_left g = S (steps_left g1) ->
            forall j, count_occ Nat.eq_dec rest j
                      = from_option steps_left 0%nat (<[i := g1]> (bs_goroutines s) !! j)).
  { intros g1 Hg1 j. pose proof (Hcount j) as Hj. cbn in Hj.
    destruct (Nat.eq_dec i j) as [<-|Hne].
    - rewrite list_lookup_insert_eq by (by eapply lookup_lt_Some). cbn. lia.
    - by rewrite list_lookup_insert_ne. }
  pose proof (returned_insert _ _ _ BReturned Hg) as Hret.
  pose proof (returned_le (<[i := BReturned]> (bs_goroutines s))) as Hle.
  rewrite length_insert in Hle.
  unfold batch_step. rewrite Hg.
  destruct g as [rb|resp e|]; [| |done].
  - assert (Hrb : is_Some (heap (bs_world s) !! rb)).
    { rewrite Forall_lookup in Hok. exact (Hok i _ Hg). }
    destruct (request_Result E rb (bs_world s)) as [[resp e] w1] eqn:HR.
    destruct (Result_ok E rb _ resp e w1 Hw Hrb HR) as (Hone & Hw1 & Hdom).
    eexists. split; [done|].
    pose proof (returned_insert _ _ _ (BAppend resp e) Hg) as Hret1.
    change (returned [BCall rb]) with 0%nat in Hret1.
    change (returned [BAppend resp e]) with 0%nat in Hret1.
    unfold batch_inv. cbn [bs_batch bs_goroutines bs_world].
    split; [exact Hw1|].
    split; [by rewrite length_insert|].
    split; [apply Hcount1; cbn in *; lia|].
    split.
    { apply Forall_insert; [|done].
      eapply Forall_impl; [exact Hok|]. intros [rb1| |]; cbn; try done.
      by rewrite Hdom. }
    split; [lia|]. split; [lia|done].
  - eexists. split; [done|].
    change (returned [BAppend resp e]) with 0%nat in Hret.
    change (returned [BReturned]) with 1%nat in Hret.
    unfold batch_inv. cbn [bs_batch bs_goroutines bs_world responses errors batch_wg].
    split; [exact Hw|].
    split; [by rewrite length_insert|].
    split; [apply Hcount1; cbn in *; lia|].
    split; [by apply Forall_insert|].
    split; [rewrite length_app; cbn; lia|].
    split; [lia|].
    apply Forall2_app; [done|]. constructor; [|done].
    rewrite Forall_lookup in Hok. exact (Hok i _ Hg).
Qed.

Lemma batch_run_inv E n sched s :
  batch_inv n sched s ->
  exists s1, batch_run E sched s = Some s1 ∧ batch_inv n [] s1.
Proof.
  revert s. induction sched as [|i rest IH]; intros s Hinv.
  - by exists s.
  - destruct (batch_step_inv E n i rest s Hinv) as (s1 & Hstep & Hinv1).
    destruct (IH s1 Hinv1) as (s2 & Hrun & Hinv2).
    exists s2. cbn. by rewrite Hstep.
Qed.

(** Whatever step a goroutine takes, the slices keep one one-sided entry
    per returned goroutine and the wait group keeps counting the others. *)
Lemma batch_step_sound E n i s s1 :
  batch_sound n s -> batch_step E i s = Some s1 -> batch_sound n s1.
Proof.
  intros (Hw & Hlen & Hok & Hresp & Hwg & Hpairs) Hstep.
  unfold batch_step in Hstep.
  destruct (bs_goroutines s !! i) as [g|] eqn:Hg; [|done].
  pose proof (returned_insert _ _ _ BReturned Hg) as Hret.
  pose proof (returned_le (<[i := BReturned]> (bs_goroutines s))) as Hle.
  rewrite length_insert in Hle.
  destruct g as [rb|resp e|]; [| |done].
  - assert (Hrb : is_Some (heap (bs_world s) !! rb)).
    { rewrite Forall_lookup in Hok. exact (Hok i _ Hg). }
    destruct (request_Result E rb (bs_world s)) as [[resp e] w1] eqn:HR.
    destruct (Result_ok E rb _ resp e w1 Hw Hrb HR) as (Hone & Hw1 & Hdom).
    pose proof (returned_insert _ _ _ (BAppend resp e) Hg) as Hret1.
    change (returned [BCall rb]) with 0%nat in Hret1.
    change (returned [BAppend resp e]) with 0%nat in Hret1.
    simplify_eq. unfold batch_sound. cbn [bs_batch bs_goroutines bs_world].
    split; [exact Hw1|].
    split; [by rewrite length_insert|].
    split.
    { apply Forall_insert; [|done].
      eapply Forall_impl; [exact Hok|]. intros [rb1| |]; cbn; try done.
      by rewrite Hdom. }
    split; [lia|]. split; [lia|done].
  - change (returned [BAppend resp e]) with 0%nat in Hret.
    change (returned [BReturned]) with 1%nat in Hret.
    simplify_eq. unfold batch_sound.
    cbn [bs_batch bs_goroutines bs_world responses errors batch_wg].
    split; [exact Hw|].
    split; [by rewrite length_insert|].
    split; [by apply Forall_insert|].
    split; [rewrite length_app; cbn; lia|].
    split; [lia|].
    apply Forall2_app; [done|]. constructor; [|done].
    rewrite Forall_lookup in Hok. exact (Hok i _ Hg).
Qed.

Lemma batch_run_sound E n sched s s1 :
  batch_sound n s -> batch_run E sched s = Some s1 -> batch_sound n s1.
Proof.
  revert s. induction sched as [|i rest IH]; intros s Hinv Hrun; cbn in Hrun.
  - by simplify_eq.
  - destruct (batch_step E i s) as [s0|] eqn:Hstep; [|done].
    eapply IH; [|done]. by eapply batch_step_sound.
Qed.

(** [Execute] starts from a sound state. *)
Lemma Execute_spawn_sound E w rbs :
  reachable E w ->
  Forall (fun rb => is_Some (heap w !! rb)) rbs ->
  batch_sound (length rbs) (Execute_spawn (batch_of rbs) w).
Proof.
  intros Hreach Hrbs. rewrite batch_of_spec. unfold Execute_spawn, batch_sound.
  cbn [bs_batch bs_goroutines bs_world requests responses errors batch_wg length].
  split; [by eapply reachable_ok|].
  split; [by rewrite length_fmap|].
  split; [by apply Forall_fmap|].
  assert (Hnone : returned (BCall <$> rbs) = 0%nat).
  { unfold returned. clear. induction rbs; cbn; [done|lia]. }
  rewrite Hnone. repeat split; [lia|constructor].
Qed.

(** C4. After [N] calls of [Add] on a fresh batch of a reachable world,
    whenever [Execute] returns, under any schedule of its goroutines
    whatever, it returns two slices of length [N], never fewer and never
    more, and at every index exactly one of the response and the error is
    non-nil. And it does return under every schedule that lets each
    goroutine take its two steps. *)
Theorem Execute_one_outcome_each (E : Env) (w : world) (rbs : list loc)
    (sched : list nat) (c : context) :
  reachable E w ->
  Forall (fun rb => is_Some (heap w !! rb)) rbs ->
  (forall rs es s,
     Execute E sched c (batch_of rbs) w = Some ((rs, es), s) ->
     length rs = length rbs ∧ length es = length rbs ∧ Forall2 exactly_one rs es) ∧
  (complete_schedule (length rbs) sched ->
   exists rs es s, Execute E sched c (batch_of rbs) w = Some ((rs, es), s)).
Proof.
  intros Hreach Hrbs.
  pose proof (Execute_spawn_sound E w rbs Hreach Hrbs) as Hsound.
  split.
  - intros rs es s HE. unfold Execute in HE.
    destruct (batch_run E sched (Execute_spawn (batch_of rbs) w)) as [s1|] eqn:Hrun;
      [|done].
    destruct (batch_wg (bs_batch s1) =? 0)%nat eqn:Hz; [|done].
    apply Nat.eqb_eq in Hz. simplify_eq.
    destruct (batch_run_sound E _ _ _ _ Hsound Hrun) as (_ & _ & _ & Hresp & Hwg & Hpairs).
    pose proof (Forall2_length _ _ _ Hpairs). repeat split; [lia|lia|done].
  - intros Hsched.
    assert (Hinv : batch_inv (length rbs) sched (Execute_spawn (batch_of rbs) w)).
    { destruct Hsound as (Hw & Hlen & Hok & Hresp & Hwg & Hpairs).
      unfold batch_inv.
      split; [done|]. split; [done|]. split; [|done].
      intros i. rewrite (Hsched i). rewrite batch_of_spec. unfold Execute_spawn.
      cbn [bs_goroutines requests]. rewrite list_lookup_fmap.
      case_decide as Hi.
      - apply lookup_lt_is_Some in Hi as [rb ->]. done.
      - rewrite lookup_ge_None_2 by lia. done. }
    destruct (batch_run_inv E _ _ _ Hinv) as (s1 & Hrun & Hinv1).
    destruct Hinv1 as (_ & Hlen & Hcount & _ & Hresp & Hwg & Hpairs).
    rewrite (returned_all (bs_goroutines s1)) in Hwg by (intros i; by rewrite <- Hcount).
    exists (responses (bs_batch s1)), (errors (bs_batch s1)), s1.
    unfold Execute. rewrite Hrun.
    assert (Hz : batch_wg (bs_batch s1) = 0%nat) by lia.
    by rewrite Hz.
Qed.

Lemma Execute_one_outcome_each_witness :
  let w := do_calls demo.env
             [DoNewRequest "GET" background "/posts/1";
              DoNewRequest "GET" background "/posts/404";
              DoNewRequest "GET" background "/posts/1"] demo.w0 in
  exists rs es s,
    Execute demo.env [2; 0; 1; 1; 0; 2]%nat background (batch_of [0; 1; 2]%nat) w
      = Some ((rs, es), s) ∧
    length rs = 3%nat ∧ length es = 3%nat ∧ Forall2 exactly_one rs es.
Proof.
  intros w.
  destruct (Execute_one_outcome_each demo.env w [0; 1; 2]%nat [2; 0; 1; 1; 0; 2]%nat
              background) as [Honly Hdoes].
  - eexists _, _, _. reflexivity.
  - repeat constructor; vm_compute; eauto.
  - destruct Hdoes as (rs & es & s & HE).
    { intros i. do 3 (destruct i as [|i]; [reflexivity|]).
      cbn. case_decide; [lia|reflexivity]. }
    exists rs, es, s. split; [exact HE|]. exact (Honly rs es s HE).
Defined.

(** C1 on the batch of the test suite's first two requests. Each request
    on its own: the first succeeds, the second fails with 404. When the
    goroutine of the second request takes its steps first, [Execute] returns
    the failure at index 0 and the response at index 1: the slices are in
    the order in which the goroutines append, not in the order of [Add]. *)
Theorem Execute_in_completion_order :
  let '(r0, w) := Get "/posts/1" demo.w0 in
  let '(r1, w) := Get "/posts/404" w in
  let b := Add r1 (Add r0 Batch) in
  let alone0 := (request_Result demo.env r0 w).1 in
  let alone1 := (request_Result demo.env r1 w).1 in
  requests b = [r0; r1] ∧
  response_status alone0.1 = Some 200 ∧ alone0.2 = None ∧
  alone1.1 = None ∧ error_status alone1.2 = Some 404 ∧
  exists (rs : list (option Response)) (es : list (option error)) s,
    Execute demo.env [1; 1; 0; 0]%nat background b w = Some ((rs, es), s) ∧
    List.map response_status rs = [None; Some 200] ∧
    List.map error_status es = [Some 404; None].
Proof.
  vm_compute. repeat split. eexists _, _, _. repeat split.
Qed.

(** In the order of [Add], the same batch comes back aligned. *)
Example Execute_in_insertion_order :
  let '(r0, w) := Get "/posts/1" demo.w0 in
  let '(r1, w) := Get "/posts/404" w in
  exists (rs : list (option Response)) (es : list (option error)) s,
    Execute demo.env [0; 0; 1; 1]%nat background (Add r1 (Add r0 Batch)) w
      = Some ((rs, es), s) ∧
    List.map response_status rs = [Some 200; None] ∧
    List.map error_status es = [None; Some 404].
Proof.
  vm_compute. eexists _, _, _. repeat split.
Qed.

(** ** The worker pool *)

(** The five parts of [pool_inv], those that hold by assumption closed. *)
Ltac split_pool_inv :=
  unfold pool_inv; cbn [ps_world ps_pool ps_workers ps_submissions jobs results];
  split; [|split; [|split; [|split]]]; try done.

Lemma pool_inv_Pool n w : world_ok w -> pool_inv (Pool n w).
Proof.
  intros Hw. unfold Pool. split_pool_inv.
  apply Forall_replicate. by left.
Qed.

Lemma submission_inv_world w w1 sub :
  (forall l, is_Some (heap w1 !! l) <-> is_Some (heap w !! l)) ->
  submission_inv w sub -> submission_inv w1 sub.
Proof.
  intros Hdom [Hcap H]. split; [done|].
  destruct (sub_goroutine sub); try done.
  destruct H as (Hrb & ?). split; [by apply Hdom|done].
Qed.

Lemma pool_inv_Submit rb s :
  pool_inv s -> is_Some (heap (ps_world s) !! rb) -> pool_inv (Submit rb s).2.
Proof.
  intros (Hw & Hj & Hr & Hwk & Hsub) Hrb. unfold Submit. cbn [snd]. split_pool_inv.
  apply Forall_app. split; [done|]. constructor; [|done]. by repeat split.
Qed.

(** Every event a pool can see keeps the invariant. *)
Lemma pool_do_inv E ev s s1 :
  pool_inv s -> pool_do E ev s = Done s1 -> pool_inv s1.
Proof.
  intros (Hw & Hj & Hr & Hwk & Hsub) Hdo.
  destruct ev as [[i prefer|i]|i]; cbn in Hdo.
  - (* a worker: with no job it can only return *)
    unfold worker_step in Hdo. rewrite Hj in Hdo.
    destruct (ps_workers s !! i) as [[]|]; try done.
    destruct (shutdown (ps_pool s)); [|done]. simplify_eq.
    split_pool_inv.
    apply Forall_insert; [done|by right].
  - (* the goroutine of a submission *)
    unfold submitter_step in Hdo.
    destruct (ps_submissions s !! i) as [sub|] eqn:Hi; [|done].
    pose proof (Hsub) as Hsubs. rewrite Forall_lookup in Hsubs.
    destruct (Hsubs i sub Hi) as [Hcap Hst].
    destruct (sub_goroutine sub) as [rb|res| |] eqn:Hg; [| | |done].
    + destruct Hst as (Hrb & Hbuf & Hrecv & Hcl).
      destruct (request_Result E rb (ps_world s)) as [[resp e] w1] eqn:HR.
      destruct (Result_ok E rb _ resp e w1 Hw Hrb HR) as (Hone & Hw1 & Hdom).
      simplify_eq. split_pool_inv.
      apply Forall_insert.
      * eapply Forall_impl; [exact Hsub|]. intros sub1. by apply submission_inv_world.
      * by repeat split.
    + destruct Hst as (Hone & Hbuf & Hrecv & Hcl).
      unfold chan_send in Hdo. rewrite Hcl, Hbuf, Hcap in Hdo. cbn in Hdo.
      simplify_eq. split_pool_inv.
      apply Forall_insert; [done|]. split; [done|]. cbn.
      split; [|done]. exists res. by rewrite Hrecv.
    + destruct Hst as (Hres & Hcl).
      unfold chan_close in Hdo. rewrite Hcl in Hdo. simplify_eq.
      split_pool_inv.
      apply Forall_insert; [done|]. by split.
  - (* a receive by the caller *)
    unfold receive in Hdo.
    destruct (ps_submissions s !! i) as [sub|] eqn:Hi; [|done].
    pose proof (Hsub) as Hsubs. rewrite Forall_lookup in Hsubs.
    destruct (Hsubs i sub Hi) as [Hcap Hst].
    unfold chan_recv in Hdo.
    destruct (ch_buf (resultChan sub)) as [|x rest] eqn:Hbuf.
    + destruct (ch_closed (resultChan sub)) eqn:Hcl; [|done]. simplify_eq.
      split_pool_inv.
      apply Forall_insert; [done|]. split; [done|]. cbn.
      destruct (sub_goroutine sub); rewrite ?Hbuf, ?Hcl, ?app_nil_r;
        rewrite ?app_nil_r in Hst; exact Hst.
    + simplify_eq. split_pool_inv.
      apply Forall_insert; [done|]. split; [done|]. cbn.
      destruct (sub_goroutine sub).
      * by destruct Hst as (_ & ? & _).
      * by destruct Hst as (_ & ? & _).
      * destruct Hst as ((res & Hres & Hone) & Hcl). split; [|done].
        exists res. split; [|done].
        destruct (sub_received sub) as [|y [|]], rest; simplify_list_eq; done.
      * destruct Hst as ((res & Hres & Hone) & Hcl). split; [|done].
        exists res. split; [|done].
        destruct (sub_received sub) as [|y [|]], rest; simplify_list_eq; done.
Qed.

Lemma pool_run_inv E evs s s1 :
  pool_inv s -> pool_run E evs s = Done s1 -> pool_inv s1.
Proof.
  revert s. induction evs as [|ev evs IH]; intros s Hinv Hrun; cbn in Hrun.
  - by simplify_eq.
  - destruct (pool_do E ev s) as [s0| |] eqn:Hdo; [|done|done].
    eapply IH; [|done]. by eapply pool_do_inv.
Qed.

(** The events of a pool add submissions and never remove one. *)
Lemma pool_do_length E ev s s1 :
  pool_do E ev s = Done s1 -> length (ps_submissions s1) = length (ps_submissions s).
Proof.
  intros Hdo. destruct ev as [[i prefer|i]|i]; cbn in Hdo.
  - unfold worker_step in Hdo. repeat case_match; by simplify_eq.
  - unfold submitter_step in Hdo.
    repeat case_match; simplify_eq; cbn; by rewrite ?length_insert.
  - unfold receive in Hdo.
    repeat case_match; simplify_eq; cbn; by rewrite ?length_insert.
Qed.

Lemma pool_run_length E evs s s1 :
  pool_run E evs s = Done s1 -> length (ps_submissions s1) = length (ps_submissions s).
Proof.
  revert s. induction evs as [|ev evs IH]; intros s Hrun; cbn in Hrun.
  - by simplify_eq.
  - destruct (pool_do E ev s) as [s0| |] eqn:Hdo; [|done|done].
    rewrite (IH _ Hrun). by eapply pool_do_length.
Qed.

(** From its invariant, the goroutine of a submission can take a step
    whenever it has one left: the one-slot channel has room for the one
    send, and is open for the send and for the close. *)
Lemma submitter_progress E i s sub :
  pool_inv s -> ps_submissions s !! i = Some sub -> sub_goroutine sub <> SFinished ->
  exists s1, pool_do E (Step (Submitter i)) s = Done s1.
Proof.
  intros (Hw & _ & _ & _ & Hsub) Hi Hne. cbn. unfold submitter_step. rewrite Hi.
  rewrite Forall_lookup in Hsub. destruct (Hsub i sub Hi) as [Hcap Hst].
  destruct (sub_goroutine sub) as [rb|res| |]; [| | |done].
  - destruct (request_Result E rb (ps_world s)) as [[resp e] w1]. eauto.
  - destruct Hst as (_ & Hbuf & _ & Hcl).
    unfold chan_send. rewrite Hcl, Hbuf, Hcap. cbn. eauto.
  - destruct Hst as (_ & Hcl). unfold chan_close. rewrite Hcl. eauto.
Qed.

(** Three steps in a row take a new submission to its end. *)
Lemma submitter_finishes E rb s :
  exists s3 res c,
    pool_run E (replicate 3 (Step (Submitter (Submit rb s).1))) (Submit rb s).2 = Done s3 ∧
    ps_submissions s3 !! (Submit rb s).1 = Some (mkSubmission SFinished c []) ∧
    ch_buf c = [res] ∧ ch_closed c = true ∧
    res = mkResult (request_Result E rb (ps_world s)).1.1 (request_Result E rb (ps_world s)).1.2.
Proof.
  unfold Submit. cbn [fst snd replicate pool_run pool_do pool_step].
  set (n := length (ps_submissions s)).
  assert (Hmid : forall (x : submission) l, (ps_submissions s ++ x :: l)%list !! n = Some x)
    by (intros; apply list_lookup_middle; done).
  assert (Hins : forall (x y : submission),
            <[n := y]> (ps_submissions s ++ [x])%list = (ps_submissions s ++ [y])%list).
  { intros x y. unfold n. rewrite insert_app_r_alt by lia.
    by rewrite Nat.sub_diag. }
  unfold submitter_step at 1. cbn [ps_submissions ps_world ps_pool ps_workers].
  rewrite Hmid. cbn [sub_goroutine resultChan sub_received].
  destruct (request_Result E rb (ps_world s)) as [[resp e] w1]. rewrite Hins.
  unfold submitter_step at 1. cbn [ps_submissions ps_world ps_pool ps_workers].
  rewrite Hmid. cbn [sub_goroutine resultChan sub_received chan_send make_chan
                     ch_closed ch_buf ch_cap length Nat.ltb Nat.leb app].
  rewrite Hins.
  unfold submitter_step at 1. cbn [ps_submissions ps_world ps_pool ps_workers].
  rewrite Hmid. cbn [sub_goroutine resultChan sub_received chan_close ch_closed ch_buf ch_cap].
  rewrite Hins.
  eexists _, _, _. split; [reflexivity|]. cbn [ps_submissions].
  split; [apply Hmid|]. done.
Qed.

(** C8. [Submit] adds one goroutine and one fresh one-slot channel, and
    leaves the pool's channels and workers as they are. Whatever the
    goroutines and the receivers of the pool do afterwards: nothing is sent
    on [p.jobs] or [p.results] and no worker takes a job; the goroutine of
    the submission can always take its next step, and its three steps put
    the pair returned by [rb.Result()] into the channel and close it; at
    most one result ever goes through the channel, which is closed
    exactly when the goroutine has finished; once it has, exactly one
    result has gone through, with a response whenever its error is nil,
    and a caller that has not received yet receives that result, and the
    closed channel's zero value after it. *)
Theorem Submit_delivers_once (E : Env) (rb : loc) (s : pool_state)
    (evs : list pool_event) (s2 : pool_state) :
  pool_inv s -> is_Some (heap (ps_world s) !! rb) ->
  let ch := (Submit rb s).1 in
  let s1 := (Submit rb s).2 in
  pool_run E evs s1 = Done s2 ->
  (ps_pool s1 = ps_pool s ∧ ps_workers s1 = ps_workers s ∧ ps_world s1 = ps_world s ∧
   ps_submissions s1 =
     (ps_submissions s ++ [mkSubmission (SCall rb) (make_chan 1) []])%list) ∧
  (exists s3 c,
     pool_run E (replicate 3 (Step (Submitter ch))) s1 = Done s3 ∧
     ps_submissions s3 !! ch = Some (mkSubmission SFinished c []) ∧
     ch_closed c = true ∧
     ch_buf c = [mkResult (request_Result E rb (ps_world s)).1.1
                          (request_Result E rb (ps_world s)).1.2]) ∧
  jobs (ps_pool s2) = [] ∧ results (ps_pool s2) = [] ∧ Forall idle (ps_workers s2) ∧
  exists sub,
    ps_submissions s2 !! ch = Some sub ∧
    (sub_goroutine sub <> SFinished ->
     exists s3, pool_do E (Step (Submitter ch)) s2 = Done s3) ∧
    (length (sub_received sub ++ ch_buf (resultChan sub)) <= 1)%nat ∧
    (ch_closed (resultChan sub) = true <-> sub_goroutine sub = SFinished) ∧
    (sub_goroutine sub = SFinished ->
     exists res,
       (sub_received sub ++ ch_buf (resultChan sub))%list = [res] ∧
       exactly_one (Result_Response res) (Result_Error res) ∧
       (Result_Error res = None -> is_Some (Result_Response res)) ∧
       (sub_received sub = [] ->
        exists s3 s4,
          receive ch s2 = Done (Some res, s3) ∧ receive ch s3 = Done (None, s4))).
Proof.
  intros Hinv Hrb ch s1 Hrun.
  split; [done|].
  split.
  { destruct (submitter_finishes E rb s) as (s3 & res & c & H1 & H2 & H3 & H4 & ->).
    by exists s3, c. }
  pose proof (pool_inv_Submit rb s Hinv Hrb) as Hinv1. fold s1 in Hinv1.
  pose proof (pool_run_inv E evs s1 s2 Hinv1 Hrun) as Hinv2.
  pose proof (pool_run_length E evs s1 s2 Hrun) as Hlen.
  destruct Hinv2 as (Hw2 & Hj2 & Hr2 & Hwk2 & Hsub2).
  split; [done|]. split; [done|]. split; [done|].
  assert (Hch : is_Some (ps_submissions s2 !! ch)).
  { apply lookup_lt_is_Some. rewrite Hlen. unfold s1, ch, Submit. cbn.
    rewrite length_app. cbn. lia. }
  clearbody ch s1.
  destruct Hch as [sub Hsub]. exists sub. split; [done|].
  split.
  { intros Hne. eapply submitter_progress; [|done|done]. split_pool_inv. }
  rewrite Forall_lookup in Hsub2. destruct (Hsub2 ch sub Hsub) as [Hcap Hst].
  destruct (sub_goroutine sub) as [rb1|res| |] eqn:Hg.
  - destruct Hst as (_ & Hb & Hr & Hc). rewrite Hb, Hr, Hc. cbn.
    repeat split; try done; lia.
  - destruct Hst as (_ & Hb & Hr & Hc). rewrite Hb, Hr, Hc. cbn.
    repeat split; try done; lia.
  - destruct Hst as ((res & Hres & _) & Hc). rewrite Hres, Hc. cbn.
    repeat split; try done; lia.
  - destruct Hst as ((res & Hres & Hone) & Hcl). rewrite Hres, Hcl. cbn.
    split; [lia|]. split; [done|]. intros _. exists res.
    split; [done|]. split; [done|]. split.
    { intros He. destruct Hone as [[? _]|[_ [? ?]]]; [done|congruence]. }
    intros Hrecv. rewrite Hrecv in Hres. cbn in Hres.
    eexists _, _. split.
    + unfold receive. rewrite Hsub. unfold chan_recv. rewrite Hres. reflexivity.
    + unfold receive. cbn [ps_submissions].
      rewrite list_lookup_insert_eq by (by eapply lookup_lt_Some).
      cbn. rewrite Hcl. reflexivity.
Qed.

Lemma Submit_delivers_once_witness :
  let w := (Get "/posts/1" demo.w0).2 in
  let s := Pool 2 w in
  let evs := [Step (Submitter 0); Step (Submitter 0); Step (Submitter 0)] in
  exists s2 sub res,
    pool_run demo.env evs (Submit 0%nat s).2 = Done s2 ∧
    ps_submissions s2 !! 0%nat = Some sub ∧
    (sub_received sub ++ ch_buf (resultChan sub))%list = [res] ∧
    ch_closed (resultChan sub) = true ∧
    jobs (ps_pool s2) = [].
Proof.
  intros w s evs.
  assert (Hinv : pool_inv s).
  { apply pool_inv_Pool. eapply (reachable_ok demo.env).
    exists demo.server, ∅, [DoNewRequest "GET" background "/posts/1"]. reflexivity. }
  assert (Hrb : is_Some (heap (ps_world s) !! 0%nat)) by (vm_compute; eauto).
  assert (Hrun : exists s2, pool_run demo.env evs (Submit 0%nat s).2 = Done s2)
    by (vm_compute; eauto).
  destruct Hrun as [s2 Hrun].
  destruct (Submit_delivers_once demo.env 0%nat s evs s2 Hinv Hrb Hrun)
    as (_ & _ & Hj & _ & _ & sub & Hsub & _ & _ & Hclosed & Hfin).
  assert (Hg : sub_goroutine sub = SFinished).
  { revert Hsub. rewrite <- (f_equal (fun r => match r with Done x => x | _ => s2 end) Hrun).
    vm_compute. by intros [= <-]. }
  destruct (Hfin Hg) as (res & Hres & _).
  exists s2, sub, res. repeat split; try done. by apply Hclosed.
Defined.

(** The pool test of the test suite, for one request: the channel yields
    the response with a nil error, then reports closed. *)
Example Submit_demo :
  let w := (Get "/posts/1" demo.w0).2 in
  let '(ch, s) := Submit 0%nat (Pool 2 w) in
  match pool_run demo.env (replicate 3 (Step (Submitter ch))) s with
  | Done s1 =>
      match receive ch s1 with
      | Done (Some res, s2) =>
          response_status (Result_Response res) = Some 200 ∧ Result_Error res = None ∧
          exists s3, receive ch s2 = Done (None, s3)
      | _ => False
      end
  | _ => False
  end.
Proof. vm_compute. repeat split. eexists. reflexivity. Qed.

(** ** Wait *)

Lemma pool_do_shutdown E ev s s1 :
  pool_do E ev s = Done s1 -> shutdown (ps_pool s1) = shutdown (ps_pool s).
Proof.
  intros Hdo. destruct ev as [[i prefer|i]|i]; cbn in Hdo.
  - unfold worker_step in Hdo. repeat case_match; by simplify_eq.
  - unfold submitter_step in Hdo. repeat case_match; by simplify_eq.
  - unfold receive in Hdo. repeat case_match; by simplify_eq.
Qed.

Lemma pool_run_shutdown E evs s s1 :
  pool_run E evs s = Done s1 -> shutdown (ps_pool s1) = shutdown (ps_pool s).
Proof.
  revert s. induction evs as [|ev evs IH]; intros s Hrun; cbn in Hrun.
  - by simplify_eq.
  - destruct (pool_do E ev s) as [s0| |] eqn:Hdo; [|done|done].
    rewrite (IH _ Hrun). by eapply pool_do_shutdown.
Qed.

(** C10. Once a call of [Wait()] has returned, the shutdown channel is
    closed, and a second call panics on closing it again, whatever the
    goroutines do. *)
Theorem Wait_twice_panics (E : Env) (evs1 evs2 : list pool_event) (s s1 : pool_state) :
  Wait E evs1 s = Done s1 ->
  Wait E evs2 s1 = Panic "close of closed channel".
Proof.
  unfold Wait. intros H1.
  destruct (shutdown (ps_pool s)); [done|].
  match type of H1 with
  | context [pool_run E evs1 ?s0] =>
      destruct (pool_run E evs1 s0) as [s2| |] eqn:Hrun; [|done|done]
  end.
  destruct (pool_wg (ps_pool s2) =? 0)%nat; [|done]. simplify_eq.
  apply pool_run_shutdown in Hrun. cbn in Hrun. by rewrite Hrun.
Qed.

Lemma Wait_twice_panics_witness :
  let s := Pool 2 demo.w0 in
  let evs := [Step (Worker 0 false); Step (Worker 1 false)] in
  exists s1,
    Wait demo.env evs s = Done s1 ∧
    Wait demo.env [] s1 = Panic "close of closed channel".
Proof.
  intros s evs. eexists. split; [vm_compute; reflexivity|].
  apply (Wait_twice_panics demo.env evs [] s). vm_compute. reflexivity.
Defined.

(** * Further properties of the engine *)

(** ** The object pool *)

(** X1. A factory call hands out a blank object bound to its method,
    endpoint and context. The object comes from the pool or is new: an
    object that is live and has not been put back is never handed out, and
    no other object, nor the client, nor the logs change. *)
Theorem factory_hands_out_blank (m : string) (c : context) (ep : string) (w : world) :
  let l := (newRequest m c ep w).1 in
  let w1 := (newRequest m c ep w).2 in
  heap w1 !! l = Some (fresh_request m ep c) ∧
  (l ∈ pool w ∨ heap w !! l = None) ∧
  (forall l0, is_Some (heap w !! l0) -> l0 ∉ pool w -> l0 <> l) ∧
  (forall l0, l0 <> l -> heap w1 !! l0 = heap w !! l0) ∧
  the_client w1 = the_client w ∧ roundtrips w1 = roundtrips w ∧
  handler_calls w1 = handler_calls w ∧ objs w1 = objs w ∧ readers w1 = readers w.
Proof.
  unfold newRequest, pool_Get.
  destruct (pool w) as [|l0 rest] eqn:Hp; cbn.
  - assert (Hfresh : heap w !! fresh (dom (heap w)) = None).
    { apply not_elem_of_dom. apply is_fresh. }
    split; [apply lookup_insert_eq|]. split; [by right|].
    split; [intros l0 [r Hr] _ ->; congruence|].
    split; [intros l0 Hne; by apply lookup_insert_ne|done].
  - split; [apply lookup_insert_eq|]. split; [left; by left|].
    split; [intros l1 _ Hnot ->; apply Hnot; by left|].
    split; [intros l1 Hne; by apply lookup_insert_ne|done].
Qed.

Lemma Into_frame E v l w :
  same_engine_state (request_Result E l w).2 (Into E v l w).2.
Proof.
  unfold Into. destruct (request_Result E l w) as [[resp e] w1]. cbn.
  destruct e as [e|].
  - destruct (is_RequestError e), (RequestError_Response e) as [data|],
      (heap w1 !! l ≫= errorType) as [dest|]; try apply same_engine_state_refl.
    destruct (Unmarshal E data dest w1) as [uerr w2] eqn:Hu.
    apply Unmarshal_same in Hu. by destruct uerr.
  - destruct resp as [rsp|]; [|apply same_engine_state_refl].
    destruct v as [dest|]; [|apply same_engine_state_refl].
    destruct (Unmarshal E (Body rsp) dest w1) as [uerr w2] eqn:Hu.
    by apply Unmarshal_same in Hu.
Qed.

Lemma Result_pool E l w r :
  heap w !! l = Some r -> pool (request_Result E l w).2 = l :: pool w.
Proof.
  intros Hl. destruct (Result_unfold E l w r Hl) as (r1 & _ & _ & ->). cbn.
  destruct (executed r) eqn:Hex; [done|].
  destruct (execute_shape E l w r Hl Hex) as (resp & e & w1 & -> & Hx).
  destruct Hx as (_ & _ & Hp & _). cbn. by rewrite Hp.
Qed.

(** X2. [Result()] and [Into()] put the object back into the pool exactly
    once per call, whether the execution succeeds, fails, or had already
    happened. *)
Theorem Result_always_releases (E : Env) (v : option boxed) (l : loc) (w : world)
    (r : request) :
  heap w !! l = Some r ->
  pool (request_Result E l w).2 = l :: pool w ∧
  pool (Into E v l w).2 = l :: pool w.
Proof.
  intros Hl. split; [by eapply Result_pool|].
  destruct (Into_frame E v l w) as (_ & _ & -> & _). by eapply Result_pool.
Qed.

Lemma Result_always_releases_witness :
  let w := (Get "/posts/404" demo.w0).2 in
  pool (request_Result demo.env 0%nat w).2 = [0%nat] ∧
  pool (Into demo.env None 0%nat w).2 = [0%nat].
Proof.
  intros w.
  eapply (Result_always_releases demo.env None 0%nat w). vm_compute. reflexivity.
Defined.

(** ** Configuring an executed request *)

(** A builder call keeps the execution state of every object and sends
    nothing. *)
Lemma builder_keeps_outcome E c w l r :
  is_builder c = true -> heap w !! l = Some r ->
  roundtrips (do_call E c w) = roundtrips w ∧ pool (do_call E c w) = pool w ∧
  exists r1, heap (do_call E c w) !! l = Some r1 ∧
    executed r1 = executed r ∧ response r1 = response r ∧ err r1 = err r.
Proof.
  intros Hb Hl.
  assert (Hupd : forall l0 f,
            (forall r0, executed (f r0) = executed r0 ∧ response (f r0) = response r0
                        ∧ err (f r0) = err r0) ->
            roundtrips (update_request l0 f w) = roundtrips w ∧
            pool (update_request l0 f w) = pool w ∧
            handler_calls (update_request l0 f w) = handler_calls w ∧
            exists r1, heap (update_request l0 f w) !! l = Some r1 ∧
              executed r1 = executed r ∧ response r1 = response r ∧ err r1 = err r).
  { intros l0 f Hf. unfold update_request.
    destruct (heap w !! l0) as [r0|] eqn:Hl0; cbn; [|by eauto 10].
    repeat split; try done. rewrite lookup_insert. case_decide.
    - subst. rewrite Hl in Hl0. simplify_eq. exists (f r0). split; [done|]. apply Hf.
    - by exists r. }
  destruct c; try done; cbn;
    try (edestruct Hupd as (? & ? & ? & ?); [|by eauto]; by intros []).
  - unfold OnSuccess.
    edestruct (Hupd l0 (set_successHandler (Some fn))) as (H1 & H2 & H3 & H4);
      [by intros []|].
    repeat case_match; cbn; eauto.
  - unfold OnError.
    edestruct (Hupd l0 (set_errorHandler (Some fn))) as (H1 & H2 & H3 & H4);
      [by intros []|].
    repeat case_match; cbn; eauto.
Qed.

(** X3. Once a request has executed, configuring it further changes
    nothing of its outcome: after any sequence of builder calls (on it or
    on other requests) [Result()] returns the stored pair and no request
    goes to the transport. *)
Theorem configuring_after_execution_is_ignored (E : Env) (cs : list api_call) (l : loc)
    (w : world) (r : request) :
  heap w !! l = Some r -> executed r = true ->
  Forall (fun c => is_builder c = true) cs ->
  let w1 := do_calls E cs w in
  request_Result E l w1 = ((response r, err r), pool_Put l w1) ∧
  roundtrips (request_Result E l w1).2 = roundtrips w.
Proof.
  intros Hl Hex Hcs w1.
  assert (H : roundtrips w1 = roundtrips w ∧
              exists r1, heap w1 !! l = Some r1 ∧ executed r1 = true ∧
                response r1 = response r ∧ err r1 = err r).
  { unfold w1, do_calls. clear w1. revert Hcs.
    induction cs as [|c cs IH] using rev_ind; intros Hcs; [by eauto 10|].
    apply Forall_app in Hcs as [Hcs Hc]. rewrite Forall_singleton in Hc.
    rewrite foldl_snoc. destruct (IH Hcs) as (Hrt & r1 & Hl1 & Hex1 & Hr1 & He1).
    destruct (builder_keeps_outcome E c _ l r1 Hc Hl1) as (Hrt2 & _ & r2 & ? & ? & ? & ?).
    split; [congruence|]. exists r2. repeat split; congruence. }
  destruct H as (Hrt & r1 & Hl1 & Hex1 & Hr1 & He1).
  assert (HR : request_Result E l w1 = ((response r, err r), pool_Put l w1)).
  { unfold request_Result. rewrite Hl1, Hex1, Hl1. by rewrite Hr1, He1. }
  split; [done|]. by rewrite HR.
Qed.

Lemma configuring_after_execution_is_ignored_witness :
  let w := (request_Result demo.env 0%nat (Get "/posts/1" demo.w0).2).2 in
  let cs := [DoSetHeader "X-A" "1" 0%nat; DoSetBody (Some (BodyString "x")) 0%nat] in
  exists r,
    heap w !! 0%nat = Some r ∧
    (request_Result demo.env 0%nat (do_calls demo.env cs w)).1 = (response r, err r) ∧
    length (roundtrips (request_Result demo.env 0%nat (do_calls demo.env cs w)).2) = 1%nat.
Proof.
  intros w cs. eexists. split; [vm_compute; reflexivity|].
  edestruct (configuring_after_execution_is_ignored demo.env cs 0%nat w) as (H1 & H2);
    [vm_compute; reflexivity|reflexivity|repeat constructor|].
  split; [by rewrite H1|]. rewrite H2. vm_compute. reflexivity.
Defined.

(** ** One outcome per execution *)

(** X4. In every world a program can bring about, [Result()] on a request
    object returns exactly one of a response and an error, and after it the
    object is marked executed. *)
Theorem Result_one_sided (E : Env) (l : loc) (w : world) :
  reachable E w -> is_Some (heap w !! l) ->
  exactly_one (request_Result E l w).1.1 (request_Result E l w).1.2 ∧
  exists r1, heap (request_Result E l w).2 !! l = Some r1 ∧ executed r1 = true.
Proof.
  intros Hreach Hl. pose proof (reachable_ok E w Hreach) as Hw.
  destruct (request_Result E l w) as [[resp e] w1] eqn:HR.
  destruct (Result_ok E l w resp e w1 Hw Hl HR) as (Hone & _ & _).
  split; [done|]. destruct Hl as [r Hl].
  destruct (Result_unfold E l w r Hl) as (r1 & H1 & Hex & HR1).
  rewrite HR1 in HR. simplify_eq. by exists r1.
Qed.

Lemma Result_one_sided_witness :
  let w := do_calls demo.env [DoNewRequest "GET" background "/posts/404"] demo.w0 in
  exactly_one (request_Result demo.env 0%nat w).1.1 (request_Result demo.env 0%nat w).1.2.
Proof.
  intros w. eapply (Result_one_sided demo.env 0%nat w).
  - eexists _, _, _. reflexivity.
  - vm_compute. eauto.
Defined.

(** ** The paths of an execution *)

(** [Result()] on a request not yet executed, from what [execute] stores. *)
Lemma Result_of_execute E l w r r1 w1 :
  heap w !! l = Some r -> executed r = false ->
  execute E l w = store l r1 w1 ->
  request_Result E l w = ((response r1, err r1), pool_Put l (store l r1 w1)).
Proof.
  intros Hl Hex Heq. unfold request_Result. rewrite Hl, Hex, Heq. cbn.
  by rewrite lookup_insert_eq.
Qed.

(** What a request that [build] returns is made of. *)
Lemma build_request E r w q w1 :
  build E r w = (Ok q, w1) ->
  exists resolved parsed,
    resolveURL E (the_client w) (endpoint r) = Ok resolved ∧
    url_Parse E resolved = Ok parsed ∧
    ctx r = Some (Req_ctx q) ∧
    Req_URL q = URL_String E (addQuery E r parsed) ∧
    Req_Method q = (if (method r =? "")%string then "GET" else method r).
Proof.
  unfold build. intros H.
  destruct (resolveURL E (the_client w) (endpoint r)) as [u|e] eqn:Hu; [|by simplify_eq].
  destruct (url_Parse E u) as [pu|e] eqn:Hpu; [|by simplify_eq].
  exists u, pu. split; [done|]. split; [done|].
  destruct (body r) as [bv|].
  - destruct (prepareBody E r w) as [[data|e] w2]; [|by simplify_eq].
    unfold NewRequestWithContext in H. destruct (ctx r); [|by simplify_eq].
    destruct (NewRequest_check E (method r) _); by simplify_eq/=.
  - unfold NewRequestWithContext in H. destruct (ctx r); [|by simplify_eq].
    destruct (NewRequest_check E (method r) _); by simplify_eq/=.
Qed.



(** X6. When the transport fails, the one request is on record as sent and
    the object is settled with an error that is not a [RequestError]: the
    context's error, under "request canceled or timed out", when the
    request's context has one, and the transport's error under "request
    failed" otherwise. [Into] returns that error as it is and leaves the
    caller's values, an error destination included, untouched. *)
Theorem transport_failure_by_context (E : Env) (v : option boxed) (l : loc) (w : world)
    (r : request) (q : http_Request) (w0 : world) (e0 : error) :
  heap w !! l = Some r -> executed r = false ->
  build E r w = (Ok q, w0) ->
  RoundTrip E (roundtrips w0) q = Fail e0 ->
  let e := match ctx_Err (Req_ctx q) with
           | Some ce => ErrWrap "request canceled or timed out" ce
           | None => ErrWrap "request failed" e0
           end in
  let after := pool_Put l (store l (failed e r)
                             (set_roundtrips (roundtrips w0 ++ [q]) w0)) in
  ctx r = Some (Req_ctx q) ∧
  request_Result E l w = ((response r, Some e), after) ∧
  roundtrips after = (roundtrips w ++ [q])%list ∧
  is_RequestError e = false ∧
  Into E v l w = (IntoReturn (Some e), after) ∧
  objs after = objs w.
Proof.
  intros Hl Hex Hb Hrt e after.
  destruct (build_request E r w q w0 Hb) as (_ & _ & _ & _ & Hctx & _).
  pose proof (build_same _ _ _ _ _ Hb) as [(_ & _ & _ & Hr0 & _) Hobjs].
  assert (Hexec : execute E l w = store l (failed e r)
                    (set_roundtrips (roundtrips w0 ++ [q]) w0)).
  { unfold execute. rewrite Hl, Hex, Hb. unfold send. rewrite Hrt. unfold e.
    by destruct (ctx_Err (Req_ctx q)). }
  assert (HR : request_Result E l w = ((response r, Some e), after)).
  { rewrite (Result_of_execute E l w r _ _ Hl Hex Hexec). by destruct r. }
  assert (Hnot : is_RequestError e = false) by (unfold e; by destruct (ctx_Err _)).
  split; [done|]. split; [done|].
  split; [cbn; by rewrite Hr0|]. split; [done|].
  split; [|done]. unfold Into. rewrite HR, Hnot. done.
Qed.

Lemma transport_failure_by_context_witness :
  let w := (GetWithContext expired "/slow" demo.w0).2 in
  (request_Result env_down 0%nat w).1
    = (None, Some (ErrWrap "request canceled or timed out"
                     (ErrExternal "context deadline exceeded"))).
Proof.
  intros w.
  edestruct (transport_failure_by_context env_down None 0%nat w) as (_ & H & _);
    [vm_compute; reflexivity|reflexivity|vm_compute; reflexivity|vm_compute; reflexivity|].
  rewrite H. vm_compute. reflexivity.
Defined.

(** X7. The body is read before the status is looked at: when reading it
    fails, the object is settled with that error, not a [RequestError],
    whatever the status, and no response is stored. *)
Theorem body_read_failure (E : Env) (l : loc) (w : world) (r : request)
    (q : http_Request) (w0 : world) (resp : http_Response) (e0 : error) :
  heap w !! l = Some r -> executed r = false ->
  build E r w = (Ok q, w0) ->
  RoundTrip E (roundtrips w0) q = Ok resp ->
  Resp_BodyErr resp = Some e0 ->
  let e := ErrWrap "error reading response body" e0 in
  request_Result E l w =
    ((response r, Some e),
     pool_Put l (store l (failed e r) (set_roundtrips (roundtrips w0 ++ [q]) w0))).
Proof.
  intros Hl Hex Hb Hrt Hbe e.
  assert (Hexec : execute E l w = store l (failed e r)
                    (set_roundtrips (roundtrips w0 ++ [q]) w0)).
  { unfold execute. rewrite Hl, Hex, Hb. unfold send. by rewrite Hrt, Hbe. }
  rewrite (Result_of_execute E l w r _ _ Hl Hex Hexec). by destruct r.
Qed.

Lemma body_read_failure_witness :
  let w := (Get "/posts/1" demo.w0).2 in
  (request_Result env_broken_body 0%nat w).1
    = (None, Some (ErrWrap "error reading response body" (ErrExternal "unexpected EOF"))).
Proof.
  intros w.
  erewrite (body_read_failure env_broken_body 0%nat w); cycle 1;
    [vm_compute; reflexivity|reflexivity|vm_compute; reflexivity
    |vm_compute; reflexivity|reflexivity|reflexivity].
Defined.

(** X8. Every status below 400 that the client's [Do] returns is a
    success, whatever its class, once the body of the answer has been read
    without error: on a request with no error stored and no result
    destination, [Result()] returns the response with the status, the
    headers and the body as received and a nil error. [Into] with a
    pointer to a value decodes that body into the value and returns what
    the decoder returns; with a nil argument, a nil pointer or a
    non-pointer it returns an error and writes nothing. *)
Theorem success_below_400 (E : Env) (l : loc) (w : world) (r : request)
    (q : http_Request) (w0 : world) (resp : http_Response) :
  heap w !! l = Some r -> executed r = false ->
  result r = None -> err r = None ->
  build E r w = (Ok q, w0) ->
  RoundTrip E (roundtrips w0) q = Ok resp ->
  Resp_BodyErr resp = None ->
  Resp_StatusCode resp < 400 ->
  let rsp := mkResponse (Resp_StatusCode resp) (Resp_Header resp) (Resp_Body resp) in
  let after := pool_Put l (store l (set_executed true (set_response (Some rsp) r))
                             (set_roundtrips (roundtrips w0 ++ [q]) w0)) in
  request_Result E l w = ((Some rsp, None), after) ∧
  (forall p old,
     objs after !! p = Some old ->
     Into E (Some (Ptr p)) l w =
       (IntoReturn (json_Unmarshal E (Resp_Body resp) old).2,
        set_objs (<[p := (json_Unmarshal E (Resp_Body resp) old).1]> (objs after)) after)) ∧
  (forall v : option boxed,
     v = None ∨ (exists x, v = Some (Val x)) ∨
     (exists p, v = Some (Ptr p) ∧ objs after !! p = None) ->
     exists e, Into E v l w = (IntoReturn (Some e), after)).
Proof.
  intros Hl Hex Hres Herr Hb Hrt Hbe Hcode rsp after.
  assert (Hexec : execute E l w = store l (set_executed true (set_response (Some rsp) r))
                    (set_roundtrips (roundtrips w0 ++ [q]) w0)).
  { unfold execute. rewrite Hl, Hex, Hb. unfold send. rewrite Hrt, Hbe.
    unfold conclude. destruct (Z.leb_spec 400 (Resp_StatusCode resp)); [lia|].
    by rewrite Hres. }
  assert (HR : request_Result E l w = ((Some rsp, None), after)).
  { rewrite (Result_of_execute E l w r _ _ Hl Hex Hexec). cbn. by rewrite Herr. }
  split; [done|]. unfold Into. rewrite HR. split.
  - intros p old Hp. unfold Unmarshal. cbn [Body rsp]. rewrite Hp.
    by destruct (json_Unmarshal E (Resp_Body resp) old).
  - intros v [->|[[x ->]|(p & -> & Hp)]]; [by eexists|by eexists|].
    unfold Unmarshal. rewrite Hp. by eexists.
Qed.

Lemma success_below_400_witness :
  let w := (Get "/posts/1" demo.w0).2 in
  response_status (request_Result demo.env 0%nat w).1.1 = Some 200 ∧
  (request_Result demo.env 0%nat w).1.2 = None.
Proof.
  intros w.
  edestruct (success_below_400 demo.env 0%nat w) as (H & _);
    [vm_compute; reflexivity|reflexivity|reflexivity|reflexivity|vm_compute; reflexivity
    |vm_compute; reflexivity|reflexivity|by vm_compute|].
  rewrite H. split; reflexivity.
Defined.

(** X9. In every world a program can bring about, [Into] on a request
    object returns: it never reaches [resp.Body] with a nil response. *)
Theorem Into_never_panics (E : Env) (v : option boxed) (l : loc) (w : world) :
  reachable E w -> is_Some (heap w !! l) ->
  exists e, (Into E v l w).1 = IntoReturn e.
Proof.
  intros Hreach Hl. pose proof (reachable_ok E w Hreach) as Hw.
  unfold Into. destruct (request_Result E l w) as [[resp e] w1] eqn:HR.
  destruct (Result_ok E l w resp e w1 Hw Hl HR) as (Hone & _ & _).
  destruct e as [e|].
  - destruct (is_RequestError e), (RequestError_Response e) as [data|],
      (heap w1 !! l ≫= errorType) as [dest|]; cbn; eauto.
    destruct (Unmarshal E data dest w1) as [[]]; cbn; eauto.
  - destruct Hone as [[[rsp ->] _]|[_ [? ?]]]; [|done].
    destruct v as [dest|]; cbn; eauto.
    destruct (Unmarshal E (Body rsp) dest w1); cbn; eauto.
Qed.

Lemma Into_never_panics_witness :
  let w := do_calls demo.env [DoNewRequest "GET" background "/posts/1"] demo.w0 in
  exists e, (Into demo.env (Some (Val VNil)) 0%nat w).1 = IntoReturn e.
Proof.
  intros w. eapply (Into_never_panics demo.env (Some (Val VNil)) 0%nat w).
  - eexists _, _, _. reflexivity.
  - vm_compute. eauto.
Defined.

(** ** Query parameters *)

Lemma foldl_insert_union {A} (kvs : list (string * A)) (dst : gmap string A) :
  foldl (fun m kv => <[kv.1 := kv.2]> m) dst kvs = list_to_map (reverse kvs) ∪ dst.
Proof.
  induction kvs as [|kv kvs IH] using rev_ind;
    [symmetry; apply (left_id_L ∅ (∪))|].
  rewrite foldl_snoc, reverse_snoc, IH. cbn. by rewrite insert_union_l.
Qed.

(** The query block of [execute], whatever the order of the visit: no
    parameters leave the URL as parsed; otherwise every parameter replaces
    the values the URL had under its key and the query is encoded anew. *)
Lemma addQuery_merge E r u :
  range_ok E ->
  addQuery E r u =
    if decide (or_make (queryParams r) = ∅) then u
    else mkURL (URL_rest u)
           (Values_Encode E (as_values (or_make (queryParams r)) ∪ URL_Query E u)).
Proof.
  intros HE. unfold addQuery. set (P := or_make (queryParams r)).
  case_decide as Hemp.
  - rewrite Hemp. by rewrite map_size_empty.
  - assert (Hsize : (0 <? size P)%nat = true).
    { apply Nat.ltb_lt. destruct (size P) eqn:Hs; [|lia].
      by apply map_size_empty_iff in Hs. }
    rewrite Hsize. do 2 f_equal.
    transitivity (foldl (fun (q : Values) kv => <[kv.1 := kv.2]> q) (URL_Query E u)
                    (prod_map id (fun v => [v]) <$> range_order E P)).
    { rewrite foldl_fmap. reflexivity. }
    rewrite foldl_insert_union. f_equal.
    rewrite <- (list_to_map_to_list (as_values P)).
    symmetry. apply list_to_map_proper; [apply NoDup_fst_map_to_list|].
    unfold as_values. by rewrite map_to_list_fmap, reverse_Permutation, (HE P).
Qed.

Lemma params_written_snoc cs c :
  params_written (cs ++ [c]) =
    match c with
    | CallSetQueryParam key value => <[key := value]> (params_written cs)
    | CallSetQueryParams ps => ps ∪ params_written cs
    end.
Proof. unfold params_written. by rewrite foldl_snoc. Qed.

Lemma query_calls_written E l w0 r0 cs :
  range_ok E -> heap w0 !! l = Some r0 -> queryParams r0 = None ->
  let w := foldl (do_query_call E l) w0 cs in
  exists ps,
    w = store l (set_queryParams ps r0) w0 ∧ or_make ps = params_written cs.
Proof.
  intros HE Hl Hh. induction cs as [|c cs IH] using rev_ind; cbn.
  - exists None. split; [|done]. destruct w0, r0; cbn in *. subst.
    unfold store. cbn. f_equal. by rewrite insert_id.
  - rewrite foldl_snoc. cbn in IH. destruct IH as (ps & -> & Hw).
    rewrite params_written_snoc.
    destruct c as [key value|ps1]; cbn [do_query_call];
      unfold SetQueryParam, SetQueryParams, update_request; cbn [heap store set_heap];
      rewrite lookup_insert_eq; cbn [queryParams set_queryParams]; rewrite Hw.
    + exists (Some (<[key := value]> (params_written cs))). split; [|done].
      unfold store. cbn. by rewrite insert_insert_eq.
    + exists (Some (assign_all E ps1 (params_written cs))). split.
      * unfold store. cbn. by rewrite insert_insert_eq.
      * cbn. by apply assign_all_union.
Qed.

(** X10. After any sequence of [SetQueryParam] and [SetQueryParams] calls
    on a fresh request, the later write to a key wins, and the URL of the
    request handed to the transport is the resolved URL with, for every
    key written, its one value in place of whatever values the resolved
    URL carried under that key; the other keys of the URL keep their
    values. With no parameter written the URL is sent as parsed, its query
    not re-encoded. The order in which [range] visits the parameters does
    not matter. *)
Theorem query_params_replace (E : Env) (l : loc) (w0 : world) (r0 : request)
    (cs : list query_call) (q : http_Request) :
  range_ok E ->
  heap w0 !! l = Some r0 -> queryParams r0 = None -> executed r0 = false ->
  let w := foldl (do_query_call E l) w0 cs in
  roundtrips (execute E l w) = (roundtrips w ++ [q])%list ->
  let P := params_written cs in
  exists resolved parsed,
    resolveURL E (the_client w0) (endpoint r0) = Ok resolved ∧
    url_Parse E resolved = Ok parsed ∧
    Req_URL q =
      URL_String E
        (if decide (P = ∅) then parsed
         else mkURL (URL_rest parsed)
                (Values_Encode E (as_values P ∪ URL_Query E parsed))) ∧
    (forall k v, P !! k = Some v -> (as_values P ∪ URL_Query E parsed) !! k = Some [v]) ∧
    (forall k, P !! k = None ->
       (as_values P ∪ URL_Query E parsed) !! k = URL_Query E parsed !! k).
Proof.
  intros HE Hl Hq Hex w Hrt P.
  destruct (query_calls_written E l w0 r0 cs HE Hl Hq) as (ps & Hw & Hps).
  fold w in Hw.
  assert (Hlw : heap w !! l = Some (set_queryParams ps r0)).
  { rewrite Hw. cbn. apply lookup_insert_eq. }
  assert (Hex' : executed (set_queryParams ps r0) = false) by done.
  destruct (execute_sent E l w _ q Hlw Hex' Hrt) as (w1 & Hb).
  destruct (build_request E _ w q w1 Hb) as (resolved & parsed & H1 & H2 & _ & H3 & _).
  exists resolved, parsed.
  assert (Hc : the_client w = the_client w0) by by rewrite Hw.
  rewrite Hc in H1. split; [done|]. split; [done|].
  split.
  { rewrite H3, (addQuery_merge E _ parsed HE). cbn [queryParams set_queryParams].
    by rewrite Hps. }
  unfold as_values. split.
  - intros k v Hk. apply lookup_union_Some_l. by rewrite lookup_fmap, Hk.
  - intros k Hk. apply lookup_union_r. by rewrite lookup_fmap, Hk.
Qed.

Lemma query_params_replace_witness :
  let l := 0%nat in
  let w0 := (Get "/posts/1" demo.w0).2 in
  let cs := [CallSetQueryParam "param1" "value1";
             CallSetQueryParam "param1" "value2"] in
  let w := foldl (do_query_call demo.env l) w0 cs in
  exists q,
    roundtrips (execute demo.env l w) = (roundtrips w ++ [q])%list ∧
    Req_URL q = "http://127.0.0.1/posts/1?param1=value2".
Proof.
  intros l w0 cs w. eexists. split; [vm_compute; reflexivity|].
  edestruct (query_params_replace demo.env l w0
               (fresh_request "GET" "/posts/1" background) cs) as (u & pu & H1 & H2 & H3 & _);
    [exact demo_range_ok|vm_compute; reflexivity|reflexivity|reflexivity
    |vm_compute; reflexivity|].
  rewrite H3. vm_compute in H1. injection H1 as <-.
  vm_compute in H2. injection H2 as <-. vm_compute. reflexivity.
Defined.

(** ** Authentication *)

(** X11. The client's authentication is read when a request executes, not
    when it is created, and each setter leaves the other's state alone: a
    request created before [SetBearerToken] is sent with that token (while
    the username or the password is empty), and a request created before
    [WithBasicAuth] with both credentials non-empty is sent with the basic
    form, a token set earlier notwithstanding. *)
Theorem auth_is_read_at_execution (E : Env) (l : loc) (w : world) (r : request) :
  heap w !! l = Some r -> executed r = false ->
  (forall token q,
     token <> "" ->
     basicAuth_Username (the_client w) = "" ∨ basicAuth_Password (the_client w) = "" ->
     roundtrips (execute E l (SetBearerToken token w))
       = (roundtrips (SetBearerToken token w) ++ [q])%list ->
     http.Header_Get "Authorization" (Req_Header q) = "Bearer " ++ token) ∧
  (forall username password q,
     username <> "" -> password <> "" ->
     roundtrips (execute E l (WithBasicAuth username password w))
       = (roundtrips (WithBasicAuth username password w) ++ [q])%list ->
     http.Header_Get "Authorization" (Req_Header q) = http.basicAuth username password) ∧
  (forall token, basicAuth_Username (the_client (SetBearerToken token w))
                 = basicAuth_Username (the_client w) ∧
                 basicAuth_Password (the_client (SetBearerToken token w))
                 = basicAuth_Password (the_client w)) ∧
  (forall username password,
     bearerToken (the_client (WithBasicAuth username password w))
     = bearerToken (the_client w)).
Proof.
  intros Hl Hex. split; [|split; [|done]].
  - intros token q Htok Hbasic Hrt.
    destruct (execute_sent E l (SetBearerToken token w) r q Hl Hex Hrt) as (w0 & Hb).
    apply build_Ok in Hb as [-> _]. rewrite addAuth_Authorization. cbn.
    apply String.eqb_neq in Htok. rewrite Htok. cbn.
    destruct Hbasic as [->| ->]; cbn; [done|]. by rewrite andb_false_r.
  - intros username password q Hu Hp Hrt.
    destruct (execute_sent E l (WithBasicAuth username password w) r q Hl Hex Hrt)
      as (w0 & Hb).
    apply build_Ok in Hb as [-> _]. rewrite addAuth_Authorization. cbn.
    apply String.eqb_neq in Hu, Hp. by rewrite Hu, Hp.
Qed.

Lemma auth_is_read_at_execution_witness :
  let l := 0%nat in
  let w := (Get "/auth/bearer" demo.w0).2 in
  exists q,
    roundtrips (execute demo.env l (SetBearerToken "valid-token" w)) = [q] ∧
    http.Header_Get "Authorization" (Req_Header q) = "Bearer valid-token".
Proof.
  intros l w. eexists. split; [vm_compute; reflexivity|].
  edestruct (auth_is_read_at_execution demo.env l w) as (H & _);
    [vm_compute; reflexivity|reflexivity|].
  eapply (H "valid-token"); [discriminate|by left|vm_compute; reflexivity].
Defined.

(** X12. An Authorization header written on the request (under one key
    string) reaches the transport only when the client has no
    authentication to apply: with both basic credentials set it is replaced
    by the basic form, else with a token set by the bearer form. *)
Theorem request_Authorization_yields (E : Env) (l : loc) (w : world) (r : request)
    (q : http_Request) (k v : string) :
  range_ok E ->
  heap w !! l = Some r -> executed r = false ->
  roundtrips (execute E l w) = (roundtrips w ++ [q])%list ->
  names "Authorization" (or_make (headers r)) = {[ k := v ]} ->
  let c := the_client w in
  http.Header_Get "Authorization" (Req_Header q) =
    if negb (basicAuth_Username c =? "")%string && negb (basicAuth_Password c =? "")%string
    then http.basicAuth (basicAuth_Username c) (basicAuth_Password c)
    else if negb (bearerToken c =? "")%string then "Bearer " ++ bearerToken c
    else v.
Proof.
  intros HE Hl Hex Hrt Hnames c.
  destruct (execute_sent E l w r q Hl Hex Hrt) as (w0 & Hb).
  apply build_Ok in Hb as [-> _]. rewrite addAuth_Authorization. fold c.
  repeat case_match; try done.
  unfold http.Header_Get, addHeaders.
  change (textproto.CanonicalMIMEHeaderKey "Authorization") with "Authorization".
  destruct (set_all_lookup E (or_make (headers r))
              (set_all E (globalHeaders c) default_headers) "Authorization" HE)
    as (_ & _ & Hone).
  fold default_headers. by rewrite (Hone k v Hnames).
Qed.

Lemma request_Authorization_yields_witness :
  let l := 0%nat in
  let w := SetHeader "authorization" "Token abc" l (Get "/posts/1" demo.w0).2 in
  exists q,
    roundtrips (execute demo.env l w) = [q] ∧
    http.Header_Get "Authorization" (Req_Header q) = "Token abc".
Proof.
  intros l w. eexists. split; [vm_compute; reflexivity|].
  refine (eq_trans (request_Authorization_yields demo.env l w _ _
                      "authorization" "Token abc" demo_range_ok _ _ _ _) _);
    try (vm_compute; reflexivity); reflexivity.
Defined.

(** ** Executing a batch again *)

Lemma batch_acc_step E rs0 es0 rbs i rest s :
  batch_acc rs0 es0 rbs (i :: rest) s ->
  exists s1, batch_step E i s = Some s1 ∧ batch_acc rs0 es0 rbs rest s1.
Proof.
  intros (Hreq & Hlen & Hcount & (rs & es & Hrs & Hes & Hlrs & Hles) & Hwg).
  pose proof (Hcount i) as Hi. cbn in Hi.
  destruct (Nat.eq_dec i i) as [_|]; [|done].
  destruct (bs_goroutines s !! i) as [g|] eqn:Hg; [|done]. cbn in Hi.
  assert (Hcount1 : forall g1, steps_left g = S (steps_left g1) ->
            forall j, count_occ Nat.eq_dec rest j
                      = from_option steps_left 0%nat (<[i := g1]> (bs_goroutines s) !! j)).
  { intros g1 Hg1 j. pose proof (Hcount j) as Hj. cbn in Hj.
    destruct (Nat.eq_dec i j) as [<-|Hne].
    - rewrite list_lookup_insert_eq by (by eapply lookup_lt_Some). cbn. lia.
    - by rewrite list_lookup_insert_ne. }
  pose proof (returned_insert _ _ _ BReturned Hg) as Hret.
  pose proof (returned_le (<[i := BReturned]> (bs_goroutines s))) as Hle.
  rewrite length_insert in Hle.
  unfold batch_step. rewrite Hg.
  destruct g as [rb|resp e|]; [| |done].
  - destruct (request_Result E rb (bs_world s)) as [[resp e] w1].
    eexists. split; [done|].
    pose proof (returned_insert _ _ _ (BAppend resp e) Hg) as Hret1.
    change (returned [BCall rb]) with 0%nat in Hret1.
    change (returned [BAppend resp e]) with 0%nat in Hret1.
    unfold batch_acc. cbn [bs_batch bs_goroutines bs_world].
    split; [done|]. split; [by rewrite length_insert|].
    split; [apply Hcount1; cbn in *; lia|].
    split; [exists rs, es; repeat split; try done; lia|lia].
  - eexists. split; [done|].
    change (returned [BAppend resp e]) with 0%nat in Hret.
    change (returned [BReturned]) with 1%nat in Hret.
    unfold batch_acc. cbn [bs_batch bs_goroutines bs_world requests responses errors batch_wg].
    split; [done|]. split; [by rewrite length_insert|].
    split; [apply Hcount1; cbn in *; lia|].
    split; [|lia].
    exists (rs ++ [resp])%list, (es ++ [e])%list.
    rewrite Hrs, Hes, !app_assoc, !length_app. cbn. repeat split; lia.
Qed.

Lemma returned_spawn (rbs : list loc) : returned (BCall <$> rbs) = 0%nat.
Proof. unfold returned. induction rbs; cbn; [done|lia]. Qed.

Lemma batch_acc_run E rs0 es0 rbs sched s :
  batch_acc rs0 es0 rbs sched s ->
  exists s1, batch_run E sched s = Some s1 ∧ batch_acc rs0 es0 rbs [] s1.
Proof.
  revert s. induction sched as [|i rest IH]; intros s Hinv.
  - by exists s.
  - destruct (batch_acc_step E rs0 es0 rbs i rest s Hinv) as (s1 & Hstep & Hinv1).
    destruct (IH s1 Hinv1) as (s2 & Hrun & Hinv2).
    exists s2. cbn. by rewrite Hstep.
Qed.

(** X13. [Execute] appends to what the batch already holds and never
    clears it. On a batch with [N] requests whose wait group is at zero,
    under every schedule that lets each goroutine take its two steps, it
    returns the slices the batch held before followed by [N] new entries
    each, and leaves the requests and a wait group at zero: so a second
    [Execute] on the same batch returns the results of the first call
    followed by [N] more, and an empty batch returns empty slices. *)
Theorem Execute_accumulates (E : Env) (sched : list nat) (c : context)
    (b : batchRequest) (w : world) :
  batch_wg b = 0%nat ->
  complete_schedule (length (requests b)) sched ->
  exists rs es s,
    Execute E sched c b w = Some ((responses b ++ rs, errors b ++ es)%list, s) ∧
    length rs = length (requests b) ∧ length es = length (requests b) ∧
    requests (bs_batch s) = requests b ∧ batch_wg (bs_batch s) = 0%nat ∧
    responses (bs_batch s) = (responses b ++ rs)%list ∧
    errors (bs_batch s) = (errors b ++ es)%list.
Proof.
  intros Hwg Hsched.
  assert (Hinv : batch_acc (responses b) (errors b) (requests b) sched (Execute_spawn b w)).
  { unfold Execute_spawn, batch_acc.
    cbn [bs_batch bs_goroutines bs_world requests responses errors batch_wg].
    pose proof (returned_spawn (requests b)) as Hnone.
    split; [done|]. split; [by rewrite length_fmap|].
    split.
    { intros i. rewrite (Hsched i), list_lookup_fmap.
      case_decide as Hi.
      - apply lookup_lt_is_Some in Hi as [rb ->]. done.
      - rewrite lookup_ge_None_2 by lia. done. }
    split; [|lia].
    exists [], []. rewrite !app_nil_r, Hnone. done. }
  destruct (batch_acc_run E _ _ _ _ _ Hinv) as (s1 & Hrun & Hinv1).
  destruct Hinv1 as (Hreq & Hlen & Hcount & (rs & es & Hrs & Hes & Hlrs & Hles) & Hwg1).
  rewrite (returned_all (bs_goroutines s1)) in Hlrs, Hles, Hwg1
    by (intros i; by rewrite <- Hcount).
  exists rs, es, s1. unfold Execute. rewrite Hrun.
  assert (Hz : batch_wg (bs_batch s1) = 0%nat) by lia.
  rewrite Hz, Hrs, Hes. cbn. repeat split; try done; lia.
Qed.

Lemma Execute_accumulates_witness :
  let w := (Get "/posts/404" (Get "/posts/1" demo.w0).2).2 in
  let b := Add 1%nat (Add 0%nat Batch) in
  exists rs1 es1 s1 rs2 es2 s2,
    Execute demo.env [0; 0; 1; 1]%nat background b w = Some ((rs1, es1), s1) ∧
    Execute demo.env [1; 0; 0; 1]%nat background (bs_batch s1) (bs_world s1)
      = Some ((rs1 ++ rs2, es1 ++ es2)%list, s2) ∧
    length rs1 = 2%nat ∧ length rs2 = 2%nat.
Proof.
  intros w b.
  destruct (Execute_accumulates demo.env [0; 0; 1; 1]%nat background b w)
    as (rs1 & es1 & s1 & H1 & Hl1 & _ & Hreq & Hwg & Hrs & Hes).
  { reflexivity. }
  { intros i. do 2 (destruct i as [|i]; [reflexivity|]).
    cbn. case_decide; [lia|reflexivity]. }
  destruct (Execute_accumulates demo.env [1; 0; 0; 1]%nat background
              (bs_batch s1) (bs_world s1))
    as (rs2 & es2 & s2 & H2 & Hl2 & _).
  { exact Hwg. }
  { rewrite Hreq. intros i. do 2 (destruct i as [|i]; [reflexivity|]).
    cbn. case_decide; [lia|reflexivity]. }
  rewrite Hrs, Hes, Hreq in *.
  exists rs1, es1, s1, rs2, es2, s2. repeat split; try done.
Defined.

(** ** Starting and stopping a pool *)

Lemma workers_run E j n s :
  (j <= n)%nat ->
  ps_workers s = workers_after j n -> jobs (ps_pool s) = [] ->
  shutdown (ps_pool s) = true -> pool_wg (ps_pool s) = (n - j)%nat ->
  exists s1,
    pool_run E ((fun i => Step (Worker i false)) <$> seq j (n - j)) s = Done s1 ∧
    ps_workers s1 = workers_after n n ∧ pool_wg (ps_pool s1) = 0%nat ∧
    ps_submissions s1 = ps_submissions s ∧ ps_world s1 = ps_world s ∧
    jobs (ps_pool s1) = [] ∧ results (ps_pool s1) = results (ps_pool s).
Proof.
  intros Hjn. remember (n - j)%nat as m eqn:Hm. revert j s Hjn Hm.
  induction m as [|m IH]; intros j s Hjn Hm Hwk Hj Hsh Hwg.
  - exists s. cbn. assert (j = n) by lia. subst j.
    repeat split; done.
  - cbn [seq fmap list_fmap pool_run pool_do pool_step].
    unfold worker_step. rewrite Hwk, Hj, Hsh.
    assert (Hlook : workers_after j n !! j = Some WSelect).
    { unfold workers_after. rewrite lookup_app_r by (rewrite length_replicate; lia).
      rewrite length_replicate, Nat.sub_diag.
      replace (n - j)%nat with (S m) by lia. done. }
    rewrite Hlook.
    assert (Hins : <[j := WReturned]> (workers_after j n) = workers_after (S j) n).
    { unfold workers_after.
      rewrite insert_app_r_alt by (rewrite length_replicate; lia).
      rewrite length_replicate, Nat.sub_diag.
      replace (n - j)%nat with (S (n - S j)) by lia. cbn.
      by rewrite app_comm_cons, replicate_cons_app, <- app_assoc. }
    rewrite Hins.
    match goal with
    | |- context [pool_run E _ ?s0] =>
        destruct (IH (S j) s0) as (s1 & Hrun & H1 & H2 & H3 & H4 & H5 & H6);
          [lia|lia|done|done|done|cbn; lia|]
    end.
    exists s1. split; [exact Hrun|]. by repeat split.
Qed.

(** The wait group of a pool counts the workers that have not returned,
    whatever happens to the pool. *)
Lemma waiting_insert ws i wk wk1 :
  ws !! i = Some wk ->
  (waiting (<[i := wk1]> ws) + waiting [wk] = waiting ws + waiting [wk1])%nat.
Proof.
  intros Hi. unfold waiting.
  rewrite <- (take_drop_middle ws i wk Hi) at 2.
  rewrite insert_take_drop by (by eapply lookup_lt_Some).
  rewrite !sum_list_with_app. cbn. lia.
Qed.

Lemma waiting_none ws : waiting ws = 0%nat -> Forall (fun wk => wk = WReturned) ws.
Proof.
  unfold waiting. induction ws as [|wk ws IH]; [done|]. cbn. intros H.
  constructor; [destruct wk; (done || lia)|apply IH; lia].
Qed.

Lemma waiting_replicate k : waiting (replicate k WSelect) = k.
Proof. unfold waiting. induction k; cbn; [done|lia]. Qed.

Lemma pool_do_waiting E ev s s1 :
  pool_wg (ps_pool s) = waiting (ps_workers s) ->
  pool_do E ev s = Done s1 ->
  pool_wg (ps_pool s1) = waiting (ps_workers s1) ∧
  length (ps_workers s1) = length (ps_workers s).
Proof.
  intros Hwg Hdo. destruct ev as [[i prefer|i]|i]; cbn in Hdo.
  - unfold worker_step in Hdo.
    destruct (ps_workers s !! i) as [wk|] eqn:Hi; [|done].
    destruct wk; try done.
    pose proof (waiting_insert _ _ _ WReturned Hi) as Hret.
    change (waiting [WSelect]) with 1%nat in Hret.
    change (waiting [WReturned]) with 0%nat in Hret.
    destruct (jobs (ps_pool s)) as [|job rest].
    + destruct (shutdown (ps_pool s)); [|done]. simplify_eq.
      cbn [ps_pool ps_workers pool_wg].
      rewrite length_insert. split; [lia|done].
    + destruct (shutdown (ps_pool s) && negb prefer).
      * simplify_eq. cbn [ps_pool ps_workers pool_wg].
        rewrite length_insert. split; [lia|done].
      * destruct (request_Result E job (ps_world s)) as [[resp e] w1].
        simplify_eq. cbn [ps_pool ps_workers pool_wg].
        rewrite length_insert. split; [|done].
        pose proof (waiting_insert _ _ _ (WPublish (mkResult resp e)) Hi) as Hpub.
        change (waiting [WSelect]) with 1%nat in Hpub.
        change (waiting [WPublish (mkResult resp e)]) with 1%nat in Hpub.
        lia.
  - unfold submitter_step in Hdo. repeat case_match; by simplify_eq.
  - unfold receive in Hdo. repeat case_match; by simplify_eq.
Qed.

Lemma pool_run_waiting E evs s s1 :
  pool_wg (ps_pool s) = waiting (ps_workers s) ->
  pool_run E evs s = Done s1 ->
  pool_wg (ps_pool s1) = waiting (ps_workers s1) ∧
  length (ps_workers s1) = length (ps_workers s).
Proof.
  revert s. induction evs as [|ev evs IH]; intros s Hwg Hrun; cbn in Hrun.
  - by simplify_eq.
  - destruct (pool_do E ev s) as [s0| |] eqn:Hdo; [|done|done].
    destruct (pool_do_waiting E ev s s0 Hwg Hdo) as [Hwg0 Hlen0].
    destruct (IH s0 Hwg0 Hrun) as [? ?]. split; [done|congruence].
Qed.

(** Only its own steps change where a worker stands. *)
Lemma pool_do_other_worker E ev s s1 i :
  pool_do E ev s = Done s1 ->
  (forall prefer, ev <> Step (Worker i prefer)) ->
  ps_workers s1 !! i = ps_workers s !! i.
Proof.
  intros Hdo Hne. destruct ev as [[j prefer|j]|j]; cbn in Hdo.
  - assert (j <> i) by (intros ->; by eapply Hne).
    unfold worker_step in Hdo.
    repeat case_match; simplify_eq; cbn; by rewrite list_lookup_insert_ne.
  - unfold submitter_step in Hdo. repeat case_match; by simplify_eq.
  - unfold receive in Hdo. repeat case_match; by simplify_eq.
Qed.

Lemma pool_run_worker_stepped E evs s s1 i :
  pool_run E evs s = Done s1 ->
  ps_workers s !! i = Some WSelect -> ps_workers s1 !! i = Some WReturned ->
  exists prefer, Step (Worker i prefer) ∈ evs.
Proof.
  revert s. induction evs as [|ev evs IH]; intros s Hrun Hi Hi1; cbn in Hrun.
  - by simplify_eq.
  - destruct (pool_do E ev s) as [s0| |] eqn:Hdo; [|done|done].
    assert (Hcase : (exists prefer, ev = Step (Worker i prefer)) ∨
                    (forall prefer, ev <> Step (Worker i prefer))).
    { destruct ev as [[j prefer|j]|j]; [|by right|by right].
      destruct (decide (j = i)) as [->|Hne]; [left; by eexists|].
      right. intros prefer1 [= ?]. done. }
    destruct Hcase as [[prefer ->]|Hne].
    + exists prefer. by left.
    + destruct (IH s0 Hrun) as [prefer Hin]; [|done|].
      * by rewrite (pool_do_other_worker E ev s s0 i Hdo Hne).
      * exists prefer. by right.
Qed.

(** X14. [Pool(workers)] starts [workers] workers, ten when the argument is
    zero or negative. However many requests have been submitted since,
    [Wait()] returns only when every one of the workers has returned,
    which each does by a step of its own that sees the closed shutdown
    channel: under whatever schedule of workers, submissions and receives,
    a [Wait()] that has returned leaves all the workers returned, and the
    schedule holds a step of each. It does return once each worker has
    taken that step, with the submissions as they were and no request
    executed on its account: it waits for the workers only. *)
Theorem Wait_waits_for_workers_only (E : Env) (n : Z) (w : world) (rbs : list loc) :
  let k := Z.to_nat (if n <=? 0 then 10 else n) in
  let s := foldl (fun s rb => (Submit rb s).2) (Pool n w) rbs in
  length (ps_workers (Pool n w)) = k ∧ (0 < k)%nat ∧
  Wait E [] s = Blocked ∧
  (forall evs s1,
     Wait E evs s = Done s1 ->
     length (ps_workers s1) = k ∧
     Forall (fun wk => wk = WReturned) (ps_workers s1) ∧
     forall i, (i < k)%nat -> exists prefer, Step (Worker i prefer) ∈ evs) ∧
  exists s1,
    Wait E (each_worker_once k) s = Done s1 ∧
    Forall (fun wk => wk = WReturned) (ps_workers s1) ∧
    ps_submissions s1 = ps_submissions s ∧
    Forall (fun sub => exists rb, sub_goroutine sub = SCall rb) (ps_submissions s1) ∧
    length (ps_submissions s1) = length rbs ∧
    ps_world s1 = w.
Proof.
  intros k s.
  assert (Hk : (0 < k)%nat).
  { unfold k. destruct (Z.leb_spec n 0); lia. }
  assert (Hs : ps_pool s = ps_pool (Pool n w) ∧ ps_workers s = ps_workers (Pool n w) ∧
               ps_world s = w ∧ length (ps_submissions s) = length rbs ∧
               Forall (fun sub => exists rb, sub_goroutine sub = SCall rb) (ps_submissions s)).
  { unfold s. clear s. induction rbs as [|rb rbs IH] using rev_ind; [by cbn|].
    rewrite foldl_snoc. destruct IH as (H1 & H2 & H3 & H4 & H5).
    unfold Submit at 1 3 5 7 9. cbn [snd ps_pool ps_workers ps_world ps_submissions].
    repeat split; try done.
    - rewrite !length_app, H4. done.
    - apply Forall_app. split; [done|]. constructor; [by eexists|done]. }
  destruct Hs as (Hp & Hwk & Hw & Hlen & Hsubs).
  assert (Hws : ps_workers s = replicate k WSelect) by (by rewrite Hwk).
  split; [unfold Pool; cbn; by rewrite length_replicate|]. split; [done|].
  split.
  { unfold Wait. rewrite Hp. cbn. fold k.
    destruct k; [lia|done]. }
  split.
  { intros evs s1 HW. unfold Wait in HW. rewrite Hp in HW.
    cbn [Pool ps_pool shutdown workers jobs results pool_wg] in HW. fold k in HW.
    match type of HW with
    | context [pool_run E evs ?s0] =>
        destruct (pool_run E evs s0) as [s2| |] eqn:Hrun; [|done|done];
        destruct (pool_run_waiting E evs s0 s2) as [Hwg2 Hlen2];
          [cbn; by rewrite Hws, waiting_replicate|exact Hrun|]
    end.
    destruct (pool_wg (ps_pool s2) =? 0)%nat eqn:Hz; [|done].
    apply Nat.eqb_eq in Hz. simplify_eq.
    cbn in Hlen2. rewrite Hws, length_replicate in Hlen2.
    assert (Hall : Forall (fun wk => wk = WReturned) (ps_workers s1)).
    { apply waiting_none. congruence. }
    split; [done|]. split; [done|].
    intros i Hi. eapply pool_run_worker_stepped; [exact Hrun| |].
    - cbn. rewrite Hws. by apply lookup_replicate_2.
    - destruct (lookup_lt_is_Some_2 (ps_workers s1) i) as [wk Hwki]; [lia|].
      rewrite Forall_lookup in Hall. by rewrite (Hall i wk Hwki) in Hwki. }
  unfold Wait. rewrite Hp. cbn [Pool ps_pool shutdown workers jobs results pool_wg]. fold k.
  match goal with
  | |- context [pool_run E _ ?s0] =>
      destruct (workers_run E 0 k s0) as (s1 & Hrun & H1 & H2 & H3 & H4 & _)
  end.
  { lia. }
  { cbn. rewrite Hwk. unfold Pool, workers_after. cbn. fold k.
    by rewrite Nat.sub_0_r. }
  { done. }
  { done. }
  { cbn. lia. }
  rewrite Nat.sub_0_r in Hrun. unfold each_worker_once. rewrite Hrun, H2. cbn.
  exists s1. split; [done|]. cbn in H3, H4.
  split.
  { rewrite H1. unfold workers_after. rewrite Nat.sub_diag, app_nil_r.
    by apply Forall_replicate. }
  rewrite H3, H4. done.
Qed.

(** ** Configuration *)

(** X15. [New] applies the package defaults only when no configuration is
    passed: the first configuration passed is taken whole, so its zero
    timeout means none, and the configurations after the first are
    ignored. Of a configuration, [New] reads the base URL, the timeout, the
    global headers and the interceptor, and nothing else: the
    connection-pool, keep-alive, compression and handshake settings do not
    reach the client it builds. *)
Theorem New_reads_four_fields (cfg cfg1 : Config) (more more1 : list Config) :
  New_from [] = (mkHttpClient (30 * Second) DefaultTransport, None, New "" ∅) ∧
  Client_Timeout (New_from (cfg :: more)).1.1 = Timeout cfg ∧
  (BaseURL cfg = BaseURL cfg1 -> Timeout cfg = Timeout cfg1 ->
   GlobalHeaders cfg = GlobalHeaders cfg1 -> Interceptor cfg = Interceptor cfg1 ->
   New_from (cfg :: more) = New_from (cfg1 :: more1)).
Proof.
  split; [done|]. split; [done|].
  intros H1 H2 H3 H4. unfold New_from. cbn. by rewrite H1, H2, H3, H4.
Qed.

Lemma New_reads_four_fields_witness :
  let cfg := mkConfig demo.server 0 None None 0 0 0 0 0 false false 0 in
  let cfg1 := mkConfig demo.server 0 None None 100 10 5 (90 * Second) (10 * Second)
                true true (10 * Second) in
  New_from [cfg] = New_from [cfg1] ∧ Client_Timeout (New_from [cfg]).1.1 = 0.
Proof.
  intros cfg cfg1.
  destruct (New_reads_four_fields cfg cfg1 [] []) as (_ & H2 & H3).
  split; [by apply H3|exact H2].
Defined.

(** X16. A pool that has been shut down still serves [Submit]: after
    [Wait()] has returned, with the shutdown channel closed and every
    counted worker gone, the goroutine of a new submission takes its three
    steps, puts the pair returned by [rb.Result()] into its channel and
    closes it. *)
Theorem Submit_after_Wait_still_delivers (E : Env) (evs : list pool_event) (rb : loc)
    (s s1 : pool_state) :
  Wait E evs s = Done s1 ->
  shutdown (ps_pool s1) = true ∧ pool_wg (ps_pool s1) = 0%nat ∧
  exists s3 c,
    pool_run E (replicate 3 (Step (Submitter (Submit rb s1).1))) (Submit rb s1).2 = Done s3 ∧
    ps_submissions s3 !! (Submit rb s1).1 = Some (mkSubmission SFinished c []) ∧
    ch_closed c = true ∧
    ch_buf c = [mkResult (request_Result E rb (ps_world s1)).1.1
                         (request_Result E rb (ps_world s1)).1.2].
Proof.
  unfold Wait. intros H.
  destruct (shutdown (ps_pool s)); [done|].
  match type of H with
  | context [pool_run E evs ?s0] =>
      destruct (pool_run E evs s0) as [s2| |] eqn:Hrun; [|done|done]
  end.
  destruct (pool_wg (ps_pool s2) =? 0)%nat eqn:Hwg; [|done]. simplify_eq.
  apply pool_run_shutdown in Hrun. cbn in Hrun.
  split; [done|]. split; [by apply Nat.eqb_eq|].
  destruct (submitter_finishes E rb s1) as (s3 & res & c & H1 & H2 & H3 & H4 & ->).
  by exists s3, c.
Qed.

Lemma Submit_after_Wait_still_delivers_witness :
  let w := (Get "/posts/1" demo.w0).2 in
  exists s1 s3,
    Wait demo.env (each_worker_once 2) (Pool 2 w) = Done s1 ∧
    pool_run demo.env (replicate 3 (Step (Submitter (Submit 0%nat s1).1))) (Submit 0%nat s1).2
      = Done s3.
Proof.
  intros w. eexists.
  assert (H : Wait demo.env (each_worker_once 2) (Pool 2 w) = Done _)
    by (vm_compute; reflexivity).
  destruct (Submit_after_Wait_still_delivers demo.env _ 0%nat _ _ H)
    as (_ & _ & s3 & c & H3 & _).
  exists s3. split; [exact H|exact H3].
Defined.

(** ** Isolation and composition *)

(** X17. [Into] never alters the stored outcome: whatever it returns (a
    decoding failure of its argument included), a [Result()] after it
    returns the pair [Result()] alone would have returned, and sends
    nothing more. *)
Theorem Result_after_Into (E : Env) (v : option boxed) (l : loc) (w : world)
    (r : request) :
  heap w !! l = Some r ->
  (request_Result E l (Into E v l w).2).1 = (request_Result E l w).1 ∧
  roundtrips (request_Result E l (Into E v l w).2).2 = roundtrips (request_Result E l w).2.
Proof.
  intros Hl.
  destruct (Into_frame E v l w) as (_ & Hh & _ & Hrt & _).
  destruct (Result_unfold E l w r Hl) as (r1 & H1 & Hex & HR).
  assert (Hl1 : heap (Into E v l w).2 !! l = Some r1).
  { rewrite Hh, HR. exact H1. }
  unfold request_Result at 1 3. rewrite Hl1, Hex, Hl1. cbn.
  rewrite HR. cbn. split; [done|]. rewrite Hrt, HR. done.
Qed.

Lemma Result_after_Into_witness :
  let w := (Get "/posts/1" demo.w0).2 in
  (request_Result demo.env 0%nat (Into demo.env None 0%nat w).2).1
    = (request_Result demo.env 0%nat w).1.
Proof.
  intros w.
  eapply (proj1 (Result_after_Into demo.env None 0%nat w _ _)).
  Unshelve. 2: vm_compute; reflexivity.
Defined.

(** X18. Executing one request sends at most one request to the transport
    and leaves every other request object, the client and the callback log
    as they are. *)
Theorem Result_is_local (E : Env) (l : loc) (w : world) :
  let w1 := (request_Result E l w).2 in
  (forall l0, l0 <> l -> heap w1 !! l0 = heap w !! l0) ∧
  the_client w1 = the_client w ∧ handler_calls w1 = handler_calls w ∧
  (roundtrips w1 = roundtrips w ∨ exists q, roundtrips w1 = (roundtrips w ++ [q])%list).
Proof.
  destruct (heap w !! l) as [r|] eqn:Hl.
  2:{ unfold request_Result. rewrite Hl. cbn. repeat split; eauto. }
  destruct (Result_unfold E l w r Hl) as (r1 & _ & _ & ->). cbn.
  destruct (executed r) eqn:Hex; [repeat split; eauto|].
  destruct (execute_shape E l w r Hl Hex) as (resp & e & wx & -> & Hx).
  destruct Hx as (Hc & Hh & _ & Hk & (x & w0 & _ & _ & Hrt) & _). cbn.
  split; [intros l0 Hne; by rewrite lookup_insert_ne, Hh|].
  split; [done|]. split; [done|].
  rewrite Hrt. destruct x; eauto.
Qed.
